(** * regexpp: the regular-expression AST of [src/ast.ts] and its fixture store

    The source file declares the node types of the ECMAScript regular
    expression syntax tree (TypeScript interfaces and unions) and, below them,
    the loader and the [save] function of the JSON test fixtures.

    The TypeScript declarations are embedded as follows.
    - Every interface becomes a constructor of [Node] that carries the
      interface's own fields; the common [NodeBase] fields [start], [end] and
      [raw] are a record, [type] is recovered by [type_of].
    - A union type ([QuantifiableElement], [ClassSetOperand], ...) becomes the
      list of the concrete interfaces it admits; the declared type of a child
      slot is checked by [fields_ok], the declared type of [parent] by
      [parent_ok].
    - The object graph is cyclic in JavaScript ([parent], [resolved] and
      [references] are references to other nodes).  The ownership tree is the
      inductive value; a node is identified by its path from the root
      ([NodeId]) and the three non-owning links are kept beside the tree. *)

From Stdlib Require Import List ZArith Bool String Lia PeanoNat.
From Stdlib Require Import DecimalString.
Import ListNotations.

Local Open Scope Z_scope.
Local Open Scope string_scope.
Local Open Scope list_scope.

Set Implicit Arguments.
#[local] Set Warnings "-register-all".

(** ** Numbers

    A JavaScript [number], an IEEE 754 double.  [Num z] is the integer [z]
    (source offsets, code points, repetition counts, error indices),
    [Dyadic m e] is [m / 2^e] for an odd [m], a finite number that is not an
    integer, and [NegZero] is [-0]; [Infinity] is
    [Number.POSITIVE_INFINITY].  Every double is one of these; an integer or
    a fraction that is too large or too precise for a double is a term for
    which no value of the program stands. *)
Inductive number : Type :=
| Num (z : Z)
| Infinity
| NegInfinity
| NaN
| NegZero
| Dyadic (m : Z) (e : positive).

(** A finite number as [m / 2^e]. *)
Definition dyadic_parts (a : number) : option (Z * Z) :=
  match a with
  | Num z => Some (z, 0)
  | NegZero => Some (0, 0)
  | Dyadic m e => Some (m, Zpos e)
  | Infinity | NegInfinity | NaN => None
  end.

(** [a <= b] on JavaScript numbers; a comparison with [NaN] is false. *)
Definition number_leb (a b : number) : bool :=
  match a, b with
  | Num x, Num y => Z.leb x y
  | Num _, Infinity => true
  | Infinity, Infinity => true
  | Infinity, Num _ => false
  | NaN, _ | _, NaN => false
  | NegInfinity, _ | _, Infinity => true
  | Infinity, _ | _, NegInfinity => false
  | _, _ =>
      match dyadic_parts a, dyadic_parts b with
      | Some (m1, e1), Some (m2, e2) => Z.leb (m1 * 2 ^ e2) (m2 * 2 ^ e1)
      | _, _ => false
      end
  end.

Definition number_le (a b : number) : Prop :=
  match a, b with
  | Num x, Num y => x <= y
  | Num _, Infinity => True
  | Infinity, Infinity => True
  | Infinity, Num _ => False
  | NaN, _ | _, NaN => False
  | NegInfinity, _ | _, Infinity => True
  | Infinity, _ | _, NegInfinity => False
  | _, _ =>
      match dyadic_parts a, dyadic_parts b with
      | Some (m1, e1), Some (m2, e2) => m1 * 2 ^ e2 <= m2 * 2 ^ e1
      | _, _ => False
      end
  end.

(** ** The node types of [ast.ts] *)

(** [NodeBase] without [type] (see [type_of]) and [parent] (see [eparent]). *)
Record NodeBase : Type := mkBase {
  start : Z;
  end_ : Z;
  raw : string
}.

(** The [kind] discriminants. *)
Inductive LookaroundKind : Type := lookahead | lookbehind.
Inductive EdgeKind : Type := kind_end | kind_start.
Inductive EscapeKind : Type := digit | space | word.

(** One constructor per interface of the source.  [Alternative] is
    [BaseAlternative], [CharacterClass] is [BaseCharacterClass],
    [LookaroundAssertion] covers the two lookaround interfaces and
    [UnicodePropertyCharacterSet] is [BaseUnicodePropertyCharacterSet]: the
    sub-interfaces narrow the discriminating field ([string], [unicodeSets],
    [kind], [strings]) and are told apart by [interface_of]. *)
Inductive Node : Type :=
| RegExpLiteral (base : NodeBase) (pattern : Node) (flags : Node)
| Pattern (base : NodeBase) (alternatives : list Node)
| Alternative (base : NodeBase) (string_ : bool) (elements : list Node)
| Group (base : NodeBase) (alternatives : list Node)
| CapturingGroup (base : NodeBase) (name : option string)
    (alternatives : list Node)
| LookaroundAssertion (base : NodeBase) (kind : LookaroundKind)
    (negate : bool) (alternatives : list Node)
| Quantifier (base : NodeBase) (min max : number) (greedy : bool)
    (element : Node)
| CharacterClass (base : NodeBase) (unicodeSets : bool) (negate : bool)
    (elements : list Node)
| CharacterClassRange (base : NodeBase) (min max : Node)
| EdgeAssertion (base : NodeBase) (kind : EdgeKind)
| WordBoundaryAssertion (base : NodeBase) (negate : bool)
| AnyCharacterSet (base : NodeBase)
| EscapeCharacterSet (base : NodeBase) (kind : EscapeKind) (negate : bool)
| UnicodePropertyCharacterSet (base : NodeBase) (strings : bool)
    (key : string) (value : option string) (negate : bool)
| ExpressionCharacterClass (base : NodeBase) (negate : bool)
    (expression : Node)
| ClassIntersection (base : NodeBase) (left right : Node)
| ClassSubtraction (base : NodeBase) (left right : Node)
| ClassStringDisjunction (base : NodeBase) (alternatives : list Node)
| Character (base : NodeBase) (value : Z)
| Backreference (base : NodeBase) (ref : Z + string)
| Flags (base : NodeBase)
    (dotAll global hasIndices ignoreCase multiline sticky unicode
     unicodeSets : bool).

Definition base_of (n : Node) : NodeBase :=
  match n with
  | RegExpLiteral b _ _ | Pattern b _ | Alternative b _ _ | Group b _
  | CapturingGroup b _ _ | LookaroundAssertion b _ _ _
  | Quantifier b _ _ _ _ | CharacterClass b _ _ _
  | CharacterClassRange b _ _ | EdgeAssertion b _
  | WordBoundaryAssertion b _ | AnyCharacterSet b
  | EscapeCharacterSet b _ _ | UnicodePropertyCharacterSet b _ _ _ _
  | ExpressionCharacterClass b _ _ | ClassIntersection b _ _
  | ClassSubtraction b _ _ | ClassStringDisjunction b _ | Character b _
  | Backreference b _ | Flags b _ _ _ _ _ _ _ _ => b
  end.

(** The values of the [type] field. *)
Inductive NodeType : Type :=
| TRegExpLiteral | TPattern | TAlternative | TGroup | TCapturingGroup
| TAssertion | TQuantifier | TCharacterClass | TCharacterClassRange
| TCharacterSet | TExpressionCharacterClass | TClassIntersection
| TClassSubtraction | TClassStringDisjunction | TCharacter | TBackreference
| TFlags.

Definition type_of (n : Node) : NodeType :=
  match n with
  | RegExpLiteral _ _ _ => TRegExpLiteral
  | Pattern _ _ => TPattern
  | Alternative _ _ _ => TAlternative
  | Group _ _ => TGroup
  | CapturingGroup _ _ _ => TCapturingGroup
  | LookaroundAssertion _ _ _ _ | EdgeAssertion _ _
  | WordBoundaryAssertion _ _ => TAssertion
  | Quantifier _ _ _ _ _ => TQuantifier
  | CharacterClass _ _ _ _ => TCharacterClass
  | CharacterClassRange _ _ _ => TCharacterClassRange
  | AnyCharacterSet _ | EscapeCharacterSet _ _ _
  | UnicodePropertyCharacterSet _ _ _ _ _ => TCharacterSet
  | ExpressionCharacterClass _ _ _ => TExpressionCharacterClass
  | ClassIntersection _ _ _ => TClassIntersection
  | ClassSubtraction _ _ _ => TClassSubtraction
  | ClassStringDisjunction _ _ => TClassStringDisjunction
  | Character _ _ => TCharacter
  | Backreference _ _ => TBackreference
  | Flags _ _ _ _ _ _ _ _ _ => TFlags
  end.

(** The concrete interfaces (the leaves of the union types). *)
Inductive Interface : Type :=
| IRegExpLiteral | IPattern | IDisjunctionAlternative | IStringAlternative
| IGroup | ICapturingGroup | ILookaheadAssertion | ILookbehindAssertion
| IQuantifier | IClassRangesCharacterClass | IUnicodeSetsCharacterClass
| ICharacterClassRange | IEdgeAssertion | IWordBoundaryAssertion
| IAnyCharacterSet | IEscapeCharacterSet
| ICharacterUnicodePropertyCharacterSet | IStringsUnicodePropertyCharacterSet
| IExpressionCharacterClass | IClassIntersection | IClassSubtraction
| IClassStringDisjunction | ICharacter | IBackreference | IFlags.

Definition Interface_eq_dec (a b : Interface) : {a = b} + {a <> b}.
Proof. decide equality. Defined.

Definition interface_of (n : Node) : Interface :=
  match n with
  | RegExpLiteral _ _ _ => IRegExpLiteral
  | Pattern _ _ => IPattern
  | Alternative _ false _ => IDisjunctionAlternative
  | Alternative _ true _ => IStringAlternative
  | Group _ _ => IGroup
  | CapturingGroup _ _ _ => ICapturingGroup
  | LookaroundAssertion _ lookahead _ _ => ILookaheadAssertion
  | LookaroundAssertion _ lookbehind _ _ => ILookbehindAssertion
  | Quantifier _ _ _ _ _ => IQuantifier
  | CharacterClass _ false _ _ => IClassRangesCharacterClass
  | CharacterClass _ true _ _ => IUnicodeSetsCharacterClass
  | CharacterClassRange _ _ _ => ICharacterClassRange
  | EdgeAssertion _ _ => IEdgeAssertion
  | WordBoundaryAssertion _ _ => IWordBoundaryAssertion
  | AnyCharacterSet _ => IAnyCharacterSet
  | EscapeCharacterSet _ _ _ => IEscapeCharacterSet
  | UnicodePropertyCharacterSet _ false _ _ _ =>
      ICharacterUnicodePropertyCharacterSet
  | UnicodePropertyCharacterSet _ true _ _ _ =>
      IStringsUnicodePropertyCharacterSet
  | ExpressionCharacterClass _ _ _ => IExpressionCharacterClass
  | ClassIntersection _ _ _ => IClassIntersection
  | ClassSubtraction _ _ _ => IClassSubtraction
  | ClassStringDisjunction _ _ => IClassStringDisjunction
  | Character _ _ => ICharacter
  | Backreference _ _ => IBackreference
  | Flags _ _ _ _ _ _ _ _ _ => IFlags
  end.

(** The nodes a node owns, slot by slot, in source order. *)
Definition children (n : Node) : list Node :=
  match n with
  | RegExpLiteral _ p f => [p; f]
  | Pattern _ alts | Group _ alts | CapturingGroup _ _ alts
  | LookaroundAssertion _ _ _ alts | ClassStringDisjunction _ alts => alts
  | Alternative _ _ els | CharacterClass _ _ _ els => els
  | Quantifier _ _ _ _ e | ExpressionCharacterClass _ _ e => [e]
  | CharacterClassRange _ a b | ClassIntersection _ a b
  | ClassSubtraction _ a b => [a; b]
  | EdgeAssertion _ _ | WordBoundaryAssertion _ _ | AnyCharacterSet _
  | EscapeCharacterSet _ _ _ | UnicodePropertyCharacterSet _ _ _ _ _
  | Character _ _ | Backreference _ _ | Flags _ _ _ _ _ _ _ _ _ => []
  end.

(** ** Node identity and the traversal of a tree *)

(** A node is identified by the child indices on the way up from it to the
    root: the root is [[]], the [i]-th child of node [p] is [i :: p]. *)
Definition NodeId : Type := list nat.

Definition NodeId_eq_dec : forall a b : NodeId, {a = b} + {a <> b} :=
  list_eq_dec Nat.eq_dec.

Definition id_eqb (a b : NodeId) : bool :=
  if NodeId_eq_dec a b then true else false.

(** A node in its tree: its identity, the node that owns it (the [parent]
    field of the source; [None] is [null]) and the node itself. *)
Record entry : Type := mkEntry {
  eid : NodeId;
  eparent : option Node;
  enode : Node
}.

Section Walk.
Variable visit : NodeId -> Node -> list entry.

(** Visit the children [l] of node [p], the first of which has index [i]. *)
Fixpoint walk_list (p : NodeId) (i : nat) (l : list Node) : list entry :=
  match l with
  | [] => []
  | c :: l' => visit (i :: p) c ++ walk_list p (S i) l'
  end.
End Walk.

(** Pre-order traversal: a node, then its children from left to right, which
    is the order of the source text. *)
Fixpoint walk (owner : option Node) (p : NodeId) (n : Node) {struct n}
  : list entry :=
  mkEntry p owner n ::
  match n with
  | RegExpLiteral _ pat fl => walk_list (walk (Some n)) p 0 [pat; fl]
  | Pattern _ alts | Group _ alts | CapturingGroup _ _ alts
  | LookaroundAssertion _ _ _ alts | ClassStringDisjunction _ alts =>
      walk_list (walk (Some n)) p 0 alts
  | Alternative _ _ els | CharacterClass _ _ _ els =>
      walk_list (walk (Some n)) p 0 els
  | Quantifier _ _ _ _ e | ExpressionCharacterClass _ _ e =>
      walk_list (walk (Some n)) p 0 [e]
  | CharacterClassRange _ a b | ClassIntersection _ a b
  | ClassSubtraction _ a b => walk_list (walk (Some n)) p 0 [a; b]
  | EdgeAssertion _ _ | WordBoundaryAssertion _ _ | AnyCharacterSet _
  | EscapeCharacterSet _ _ _ | UnicodePropertyCharacterSet _ _ _ _ _
  | Character _ _ | Backreference _ _ | Flags _ _ _ _ _ _ _ _ _ => []
  end.

(** Modelled from the spec: the wiring of [parent] by the Tree Builder, which
    is missing from the source.  The [parent] of a node is the node that owns
    it, and the root of a tree has none. *)
Definition entries (root : Node) : list entry := walk None [] root.

(** The number of nodes of a tree. *)
Fixpoint size (n : Node) : nat :=
  S (match n with
     | RegExpLiteral _ p f => size p + size f
     | Pattern _ l | Group _ l | CapturingGroup _ _ l
     | LookaroundAssertion _ _ _ l | ClassStringDisjunction _ l
     | Alternative _ _ l | CharacterClass _ _ _ l => list_sum (map size l)
     | Quantifier _ _ _ _ e | ExpressionCharacterClass _ _ e => size e
     | CharacterClassRange _ a b | ClassIntersection _ a b
     | ClassSubtraction _ a b => size a + size b
     | EdgeAssertion _ _ | WordBoundaryAssertion _ _ | AnyCharacterSet _
     | EscapeCharacterSet _ _ _ | UnicodePropertyCharacterSet _ _ _ _ _
     | Character _ _ | Backreference _ _ | Flags _ _ _ _ _ _ _ _ _ => 0
     end)%nat.

(** ** The union types *)

Definition LookaroundAssertion_union : list Interface :=
  [ILookaheadAssertion; ILookbehindAssertion].
Definition BoundaryAssertion : list Interface :=
  [IEdgeAssertion; IWordBoundaryAssertion].
Definition Assertion : list Interface :=
  BoundaryAssertion ++ LookaroundAssertion_union.
Definition CharacterClass_union : list Interface :=
  [IClassRangesCharacterClass; IUnicodeSetsCharacterClass].
Definition UnicodePropertyCharacterSet_union : list Interface :=
  [ICharacterUnicodePropertyCharacterSet; IStringsUnicodePropertyCharacterSet].
Definition CharacterSet : list Interface :=
  [IAnyCharacterSet; IEscapeCharacterSet] ++ UnicodePropertyCharacterSet_union.
Definition Alternative_union : list Interface :=
  [IDisjunctionAlternative; IStringAlternative].

Definition QuantifiableElement : list Interface :=
  [IBackreference; ICapturingGroup; ICharacter] ++ CharacterClass_union ++
  CharacterSet ++ [IExpressionCharacterClass; IGroup; ILookaheadAssertion].

Definition Element : list Interface :=
  Assertion ++ QuantifiableElement ++ [IQuantifier].

Definition ClassRangesCharacterClassElement : list Interface :=
  [ICharacter; ICharacterClassRange; IEscapeCharacterSet] ++
  UnicodePropertyCharacterSet_union.

Definition UnicodeSetsCharacterClassElement : list Interface :=
  [ICharacter; ICharacterClassRange; IClassStringDisjunction;
   IEscapeCharacterSet; IExpressionCharacterClass] ++
  UnicodePropertyCharacterSet_union ++ [IUnicodeSetsCharacterClass].

Definition CharacterClassElement : list Interface :=
  ClassRangesCharacterClassElement ++ UnicodeSetsCharacterClassElement.

Definition ClassSetOperand : list Interface :=
  [ICharacter; IClassStringDisjunction; IEscapeCharacterSet;
   IExpressionCharacterClass] ++
  UnicodePropertyCharacterSet_union ++ [IUnicodeSetsCharacterClass].

Definition mem (i : Interface) (u : list Interface) : bool :=
  if in_dec Interface_eq_dec i u then true else false.

(** [n] is a value of the union type [u]. *)
Definition is_a (u : list Interface) (n : Node) : bool :=
  mem (interface_of n) u.

(** ** The declared types of the fields *)

(** The declared type of every child slot of [n], and the literal types that
    a sub-interface gives to a field of its base interface. *)
Definition fields_ok (n : Node) : bool :=
  match n with
  | RegExpLiteral _ pat fl => is_a [IPattern] pat && is_a [IFlags] fl
  | Pattern _ alts | Group _ alts | CapturingGroup _ _ alts
  | LookaroundAssertion _ _ _ alts =>
      forallb (is_a [IDisjunctionAlternative]) alts
  | Alternative _ false els => forallb (is_a Element) els
  | Alternative _ true els => forallb (is_a [ICharacter]) els
  | Quantifier _ _ _ _ e => is_a QuantifiableElement e
  | CharacterClass _ false _ els =>
      forallb (is_a ClassRangesCharacterClassElement) els
  | CharacterClass _ true _ els =>
      forallb (is_a UnicodeSetsCharacterClassElement) els
  | CharacterClassRange _ a b => is_a [ICharacter] a && is_a [ICharacter] b
  | UnicodePropertyCharacterSet _ false _ _ _ => true
  | UnicodePropertyCharacterSet _ true _ v ng =>
      match v with None => negb ng | Some _ => false end
  | ExpressionCharacterClass _ _ e =>
      is_a [IClassIntersection; IClassSubtraction] e
  | ClassIntersection _ l r =>
      is_a (IClassIntersection :: ClassSetOperand) l && is_a ClassSetOperand r
  | ClassSubtraction _ l r =>
      is_a (ClassSetOperand ++ [IClassSubtraction]) l && is_a ClassSetOperand r
  | ClassStringDisjunction _ alts => forallb (is_a [IStringAlternative]) alts
  | EdgeAssertion _ _ | WordBoundaryAssertion _ _ | AnyCharacterSet _
  | EscapeCharacterSet _ _ _ | Character _ _ | Backreference _ _
  | Flags _ _ _ _ _ _ _ _ _ => true
  end.

(** The declared type of [parent], interface by interface; [None] is the
    [null] of the source. *)
Definition parent_types (i : Interface) : list (option Interface) :=
  match i with
  | IRegExpLiteral => [None]
  | IPattern => [Some IRegExpLiteral; None]
  | IDisjunctionAlternative =>
      [Some ICapturingGroup; Some IGroup] ++
      map Some LookaroundAssertion_union ++ [Some IPattern]
  | IStringAlternative => [Some IClassStringDisjunction]
  | IGroup | ICapturingGroup | ILookaheadAssertion | IEdgeAssertion
  | IWordBoundaryAssertion | IAnyCharacterSet | IBackreference =>
      [Some IDisjunctionAlternative; Some IQuantifier]
  | ILookbehindAssertion | IQuantifier => [Some IDisjunctionAlternative]
  | IClassRangesCharacterClass =>
      [Some IDisjunctionAlternative; Some IQuantifier]
  | IUnicodeSetsCharacterClass | IExpressionCharacterClass =>
      [Some IDisjunctionAlternative; Some IExpressionCharacterClass;
       Some IQuantifier; Some IUnicodeSetsCharacterClass]
  | ICharacterClassRange => map Some CharacterClass_union
  | IEscapeCharacterSet | ICharacterUnicodePropertyCharacterSet
  | IStringsUnicodePropertyCharacterSet =>
      map Some CharacterClass_union ++
      [Some IClassIntersection; Some IClassSubtraction;
       Some IDisjunctionAlternative; Some IQuantifier]
  | IClassIntersection =>
      [Some IClassIntersection; Some IExpressionCharacterClass]
  | IClassSubtraction =>
      [Some IClassSubtraction; Some IExpressionCharacterClass]
  | IClassStringDisjunction =>
      [Some IClassIntersection; Some IClassSubtraction;
       Some IUnicodeSetsCharacterClass]
  | ICharacter =>
      map Some Alternative_union ++ map Some CharacterClass_union ++
      [Some ICharacterClassRange; Some IClassIntersection;
       Some IClassSubtraction; Some IQuantifier]
  | IFlags => [Some IRegExpLiteral; None]
  end.

Definition option_Interface_eq_dec (a b : option Interface)
  : {a = b} + {a <> b}.
Proof. decide equality. apply Interface_eq_dec. Defined.

(** The interface of the node in the [parent] field. *)
Definition parent_interface (e : entry) : option Interface :=
  option_map interface_of (eparent e).

Definition parent_ok (e : entry) : bool :=
  if in_dec option_Interface_eq_dec (parent_interface e)
       (parent_types (interface_of (enode e)))
  then true else false.

(** The eight variants of [QuantifiableElement], by name. *)
Definition quantifiable (n : Node) : Prop :=
  interface_of n = IBackreference \/ interface_of n = ICapturingGroup \/
  interface_of n = ICharacter \/ In (interface_of n) CharacterClass_union \/
  In (interface_of n) CharacterSet \/
  interface_of n = IExpressionCharacterClass \/ interface_of n = IGroup \/
  interface_of n = ILookaheadAssertion.

(** A tree all of whose nodes have fields of the declared types. *)
Definition well_typed (root : Node) : bool :=
  forallb (fun e => fields_ok (enode e)) (entries root).

(** A tree all of whose nodes have a [parent] of the declared type. *)
Definition parents_typed (root : Node) : bool :=
  forallb parent_ok (entries root).

(** ** Construction: mode gate, builder and backreference resolver

    [ast.ts] holds the declarations only.  The code that builds a tree is not
    part of it; the definitions of this part follow the specification. *)

Inductive ErrorKind : Type :=
| UnsupportedConstruct
| UnresolvedReference
| MalformedRange.

(** A construction error: its kind and the source span of the offending
    node. *)
Record BuildError : Type := mkError {
  error_kind : ErrorKind;
  error_start : Z;
  error_end : Z
}.

Inductive Result (A : Type) : Type :=
| Ok (a : A)
| Err (e : BuildError).

Arguments Ok {A} a.
Arguments Err {A} e.

Definition error_at (k : ErrorKind) (n : Node) : BuildError :=
  mkError k (start (base_of n)) (end_ (base_of n)).

(** The active dialect. *)
Record Mode : Type := mkMode {
  ecmaVersion : Z;
  strict : bool;
  mode_unicodeSets : bool
}.

(** Modelled from the spec: the Mode Gate, which is missing from the source.
    It answers whether constructing a node shape is legal in the active mode:
    the two class grammars are selected by [unicodeSets] and exclude each
    other; the string-bearing constructs ([ClassStringDisjunction],
    [StringAlternative], a strings-valued [UnicodePropertyCharacterSet]), the
    [ExpressionCharacterClass] and the class set operations are legal only
    under [unicodeSets = true]; [Flags] with both [unicode] and [unicodeSets]
    are never legal.  The legacy escape shapes that depend on [strict] are
    shapes of the source text, which the tree does not record. *)
Definition mode_gate (m : Mode) (n : Node) : bool :=
  match n with
  | CharacterClass _ us _ _ => Bool.eqb us (mode_unicodeSets m)
  | ClassStringDisjunction _ _ | ExpressionCharacterClass _ _ _
  | ClassIntersection _ _ _ | ClassSubtraction _ _ _
  | Alternative _ true _ | UnicodePropertyCharacterSet _ true _ _ _ =>
      mode_unicodeSets m
  | Flags _ _ _ _ _ _ _ u v => negb (u && v)
  | _ => true
  end.

(** The node shapes that the gate admits in Unicode-sets mode only. *)
Definition UnicodeSetsOnly : list Interface :=
  [IClassStringDisjunction; IExpressionCharacterClass;
   IUnicodeSetsCharacterClass; IStringAlternative;
   IStringsUnicodePropertyCharacterSet; IClassIntersection;
   IClassSubtraction].

(** Modelled from the spec: the order invariants the Tree Builder enforces
    inline, which are missing from the source: [0 <= min <= max] on a
    quantifier and [min.value <= max.value] on a class range. *)
Definition range_ok (n : Node) : bool :=
  match n with
  | Quantifier _ mn mx _ _ => number_leb (Num 0) mn && number_leb mn mx
  | CharacterClassRange _ (Character _ a) (Character _ b) => Z.leb a b
  | _ => true
  end.

(** Modelled from the spec: the check the Tree Builder applies to one node,
    which is missing from the source.  A shape the gate refuses is an
    [UnsupportedConstruct], an order violation a [MalformedRange], both at the
    span of the node. *)
Definition check_node (m : Mode) (n : Node) : option BuildError :=
  if negb (mode_gate m n) then Some (error_at UnsupportedConstruct n)
  else if negb (range_ok n) then Some (error_at MalformedRange n)
  else None.

Fixpoint first_error (m : Mode) (es : list entry) : option BuildError :=
  match es with
  | [] => None
  | e :: es' =>
      match check_node m (enode e) with
      | Some err => Some err
      | None => first_error m es'
      end
  end.

(** Modelled from the spec: the Tree Builder, which is missing from the
    source.  The parser driver that proposes the nodes is out of scope; the
    builder is the discipline it applies to them: every node of the tree is
    checked in source order and the first failure aborts the tree. *)
Definition build_tree (m : Mode) (root : Node) : Result Node :=
  match first_error m (entries root) with
  | Some err => Err err
  | None => Ok root
  end.

(** The two cross links, kept beside the tree: [resolved] of a backreference
    ([None] while unset) and [references] of a capturing group. *)
Record Links : Type := mkLinks {
  resolved : NodeId -> option NodeId;
  references : NodeId -> list NodeId
}.

Definition no_links : Links := mkLinks (fun _ => None) (fun _ => []).

(** [b.resolved = g; g.references.push(b)]. *)
Definition link (b g : NodeId) (st : Links) : Links :=
  mkLinks
    (fun x => if id_eqb x b then Some g else resolved st x)
    (fun x => if id_eqb x g then references st x ++ [b] else references st x).

Definition is_capturing_group (e : entry) : bool :=
  match enode e with CapturingGroup _ _ _ => true | _ => false end.

Definition is_backreference (e : entry) : bool :=
  match enode e with Backreference _ _ => true | _ => false end.

Definition group_name (e : entry) : option string :=
  match enode e with CapturingGroup _ nm _ => nm | _ => None end.

Definition has_name (s : string) (e : entry) : bool :=
  match group_name e with Some s' => String.eqb s s' | None => false end.

(** The capturing groups of a tree in source order: the group at index [k]
    of the list has the 1-based ordinal [k + 1]. *)
Definition capturing_groups (root : Node) : list entry :=
  filter is_capturing_group (entries root).

Definition backreferences (root : Node) : list entry :=
  filter is_backreference (entries root).

Section Resolver.
(** The disjunction-scoping rule of the dialect: given a named reference
    and the groups that share its name, the group the reference binds to. *)
Variable scoping : entry -> list entry -> entry.

(** Modelled from the spec: the lookup of the Backreference Resolver, which
    is missing from the source.  A numeric reference resolves by ordinal
    position over the whole tree, a named reference by exact name; when
    several groups share the name the scoping rule picks one. *)
Definition find_group (groups : list entry) (b : entry) : option entry :=
  match enode b with
  | Backreference _ (inl k) =>
      if Z.leb 1 k then nth_error groups (Z.to_nat (k - 1)) else None
  | Backreference _ (inr s) =>
      match filter (has_name s) groups with
      | [] => None
      | [g] => Some g
      | g :: gs => Some (scoping b (g :: gs))
      end
  | _ => None
  end.

(** Modelled from the spec: the pass over the backreferences, in source
    order.  A reference without a group fails the pass with
    [UnresolvedReference] at the span of the reference. *)
Fixpoint resolve_refs (groups bs : list entry) (st : Links) : Result Links :=
  match bs with
  | [] => Ok st
  | b :: bs' =>
      match find_group groups b with
      | None => Err (error_at UnresolvedReference (enode b))
      | Some g => resolve_refs groups bs' (link (eid b) (eid g) st)
      end
  end.

(** Modelled from the spec: the Backreference Resolver, which is missing
    from the source. *)
Definition resolve (root : Node) : Result Links :=
  resolve_refs (capturing_groups root) (backreferences root) no_links.

(** A finished tree: the ownership tree and its cross links. *)
Record Tree : Type := mkTree {
  tree_root : Node;
  tree_links : Links
}.

(** Modelled from the spec: the whole construction, builder then resolver;
    a failure of either phase produces no tree. *)
Definition build (m : Mode) (root : Node) : Result Tree :=
  match build_tree m root with
  | Err err => Err err
  | Ok t =>
      match resolve t with
      | Err err => Err err
      | Ok ls => Ok (mkTree t ls)
      end
  end.
End Resolver.

(** The links [st] are those of the backreferences [done]: every one of them
    is resolved, to a group of [groups]; nothing else is; and [references] is
    the inverse of [resolved]. *)
Definition links_of (groups done : list entry) (st : Links) : Prop :=
  (forall x g, resolved st x = Some g ->
     (exists b, In b done /\ eid b = x) /\
     (exists ge, In ge groups /\ eid ge = g)) /\
  (forall b, In b done -> exists g, resolved st (eid b) = Some g) /\
  (forall g x, In x (references st g) <-> resolved st x = Some g).



(** The scoping rule that binds a reference to the first group of its name. *)
Definition first_in_source (b : entry) (gs : list entry) : entry :=
  hd b gs.

(** ** The fixture store

    [fixturesData] is filled by [JSON.parse] with a reviver and written back
    by [save] through [JSON.stringify] with a replacer.  The model is that
    of one record: the text of one fixture file and the value that
    [fixturesData] holds for it.  The file system (the listing of the
    directory, the reading and the writing of a file, which may throw) is
    left out. *)

(** The values a fixture record holds in memory: [null], booleans, numbers,
    strings, arrays and plain objects.  The own properties of an object are
    listed in the order of [Object.keys]. *)
Inductive jsval : Type :=
| VNull
| VBool (b : bool)
| VNumber (n : number)
| VString (s : string)
| VArray (elements : list jsval)
| VObject (properties : list (string * jsval)).

(** The text of a fixture file: its values in the order of the text, the
    members of an object as written, also when a name is repeated.  A number
    of the text is kept as the JavaScript number that [JSON.parse] reads it
    as: the nearest double, an infinity for a numeral beyond the range of the
    doubles, [-0] for the numeral [-0]; no numeral reads as [NaN]. *)
Inductive json : Type :=
| JNull
| JBool (b : bool)
| JNumber (n : number)
| JString (s : string)
| JArray (elements : list json)
| JObject (members : list (string * json)).

Section Members.
Variables A B : Type.

(** The property key of the array index [i]. *)
Definition index_key (i : nat) : string :=
  NilZero.string_of_uint (Nat.to_uint i).

Section Total.
Variable f : string -> A -> B.

Fixpoint map_elements (i : nat) (l : list A) : list B :=
  match l with
  | [] => []
  | x :: l' => f (index_key i) x :: map_elements (S i) l'
  end.

Fixpoint map_members (ps : list (string * A)) : list (string * B) :=
  match ps with
  | [] => []
  | (k, x) :: ps' => (k, f k x) :: map_members ps'
  end.
End Total.

Section Partial.
Variable f : string -> A -> option B.

Fixpoint try_elements (i : nat) (l : list A) : option (list B) :=
  match l with
  | [] => Some []
  | x :: l' =>
      match f (index_key i) x, try_elements (S i) l' with
      | Some y, Some ys => Some (y :: ys)
      | _, _ => None
      end
  end.

Fixpoint try_members (ps : list (string * A))
  : option (list (string * B)) :=
  match ps with
  | [] => Some []
  | (k, x) :: ps' =>
      match f k x, try_members ps' with
      | Some y, Some ys => Some ((k, y) :: ys)
      | _, _ => None
      end
  end.
End Partial.
End Members.

(** *** The own properties of an object *)

(** The array index a property key stands for: the canonical numeral of an
    integer below [2^32 - 1]. *)
Definition array_index (k : string) : option N :=
  match NilEmpty.uint_of_string k with
  | Some u =>
      let n := N.of_uint u in
      if String.eqb (NilZero.string_of_uint (N.to_uint n)) k
         && N.ltb n (2 ^ 32 - 1)
      then Some n else None
  | None => None
  end.

(** The key [a] comes before the other key [b] in the order of the own
    properties: array indices first, in ascending order, then the other keys
    in the order of their creation. *)
Definition key_before (a b : string) : bool :=
  match array_index a, array_index b with
  | Some n, Some m => N.ltb n m
  | Some _, None => true
  | None, Some _ => false
  | None, None => negb (String.eqb a b)
  end.

(** A list of keys as an object has them: every key before the later ones. *)
Fixpoint ordered (ks : list string) : bool :=
  match ks with
  | [] => true
  | k :: ks' => forallb (key_before k) ks' && ordered ks'
  end.

Section Properties.
Variable V : Type.

(** [o[k]] on an object whose own properties are [o], in order. *)
Fixpoint lookup (k : string) (o : list (string * V)) : option V :=
  match o with
  | [] => None
  | (k', v) :: o' => if String.eqb k k' then Some v else lookup k o'
  end.

(** The value of the property [k] is replaced where the property stands. *)
Fixpoint set_value (k : string) (v : V) (o : list (string * V))
  : list (string * V) :=
  match o with
  | [] => []
  | (k', v') :: o' =>
      if String.eqb k k' then (k, v) :: o' else (k', v') :: set_value k v o'
  end.

(** The new array index [n], with key [k], takes its place among the
    indices. *)
Fixpoint insert_index (n : N) (k : string) (v : V) (o : list (string * V))
  : list (string * V) :=
  match o with
  | [] => [(k, v)]
  | (k', v') :: o' =>
      match array_index k' with
      | Some n' =>
          if N.ltb n n' then (k, v) :: o else (k', v') :: insert_index n k v o'
      | None => (k, v) :: o
      end
  end.

(** [CreateDataProperty(o, k, v)] on an ordinary object. *)
Definition define (k : string) (v : V) (o : list (string * V))
  : list (string * V) :=
  match lookup k o with
  | Some _ => set_value k v o
  | None =>
      match array_index k with
      | Some n => insert_index n k v o
      | None => o ++ [(k, v)]
      end
  end.

(** The object that the members of an object literal of the text create, one
    after the other: a repeated name keeps its place and takes the last
    value. *)
Definition create (members : list (string * V)) : list (string * V) :=
  fold_left (fun o kv => define (fst kv) (snd kv) o) members [].
End Properties.

Section JSON.
(** [JSON.stringify(value, replacer)]: the replacer is applied to a value
    before the value is written, and the properties of what it returns are
    written in turn.  A replacer may return a larger value than it was
    given, so the recursion is bounded by [fuel]; [None] means the bound
    was reached.  A finite number is written as a numeral that reads as that
    number, [-0] as [0], and a number that is not finite as [null]. *)
Variable replacer : string -> jsval -> jsval.

Fixpoint SerializeJSONProperty (fuel : nat) (key : string) (value : jsval)
  : option json :=
  match fuel with
  | O => None
  | S fuel' =>
      match replacer key value with
      | VNull => Some JNull
      | VBool b => Some (JBool b)
      | VNumber (Num z) => Some (JNumber (Num z))
      | VNumber (Dyadic m e) => Some (JNumber (Dyadic m e))
      | VNumber NegZero => Some (JNumber (Num 0))
      | VNumber Infinity | VNumber NegInfinity | VNumber NaN => Some JNull
      | VString s => Some (JString s)
      | VArray l =>
          option_map JArray
            (try_elements (SerializeJSONProperty fuel') 0 l)
      | VObject ps =>
          option_map JObject (try_members (SerializeJSONProperty fuel') ps)
      end
  end.

Definition JSON_stringify (fuel : nat) (value : jsval) : option json :=
  SerializeJSONProperty fuel EmptyString value.

(** [JSON.parse(text)] before the reviver runs: the value of the text. *)
Fixpoint parse_value (j : json) : jsval :=
  match j with
  | JNull => VNull
  | JBool b => VBool b
  | JNumber n => VNumber n
  | JString s => VString s
  | JArray l => VArray (map parse_value l)
  | JObject ps => VObject (create (map_members (fun _ => parse_value) ps))
  end.

(** The walk of the reviver over the parsed value: the reviver is applied to
    every value, the properties of an object or array before the object or
    array itself, and its result takes the place of the value. *)
Variable reviver : string -> jsval -> jsval.

Fixpoint InternalizeJSONProperty (key : string) (val : jsval) : jsval :=
  reviver key
    match val with
    | VArray l => VArray (map_elements InternalizeJSONProperty 0 l)
    | VObject ps => VObject (map_members InternalizeJSONProperty ps)
    | _ => val
    end.

(** [JSON.parse(text, reviver)]. *)
Definition JSON_parse (j : json) : jsval :=
  InternalizeJSONProperty EmptyString (parse_value j).
End JSON.

Definition sentinel : string := "$$Infinity".

(** [(_, v) => (v === "$$Infinity" ? Infinity : v)] *)
Definition load_reviver (_ : string) (v : jsval) : jsval :=
  match v with
  | VString s => if String.eqb s sentinel then VNumber Infinity else v
  | _ => v
  end.

(** [(_, v) => (v === Infinity ? "$$Infinity" : v)] *)
Definition save_replacer (_ : string) (v : jsval) : jsval :=
  match v with
  | VNumber Infinity => VString sentinel
  | _ => v
  end.

(** The nesting depth of a value. *)
Fixpoint depth (v : jsval) : nat :=
  match v with
  | VArray l => S (list_max (map depth l))
  | VObject ps => S (list_max (map (fun kv => depth (snd kv)) ps))
  | _ => 0
  end.

(** The record of one fixture file as [fixturesData] holds it after the
    loader has run. *)
Definition load (text : json) : jsval := JSON_parse load_reviver text.

(** The text [save] writes for one fixture record.  The indentation
    argument of [JSON.stringify] lays the text out and does not change the
    document. *)
Definition save (data : jsval) : option json :=
  JSON_stringify save_replacer (S (depth data)) data.

(** Write a record, then load it again. *)
Definition save_then_load (data : jsval) : option jsval :=
  option_map load (save data).

(** No string value of [v], at any depth, is the sentinel.  The keys of an
    object are not values: the replacer and the reviver leave them alone. *)
Fixpoint sentinel_free (v : jsval) : bool :=
  match v with
  | VString s => negb (String.eqb s sentinel)
  | VArray l => forallb sentinel_free l
  | VObject ps => forallb (fun kv => sentinel_free (snd kv)) ps
  | _ => true
  end.

(** A number that a text written by [save] gives back: a finite number
    other than [-0], or [Infinity]. *)
Definition restorable (n : number) : bool :=
  match n with
  | Num _ | Dyadic _ _ | Infinity => true
  | NegInfinity | NaN | NegZero => false
  end.

(** Every number of [v], at any depth, is restorable. *)
Fixpoint restorable_numbers (v : jsval) : bool :=
  match v with
  | VNumber n => restorable n
  | VArray l => forallb restorable_numbers l
  | VObject ps => forallb (fun kv => restorable_numbers (snd kv)) ps
  | _ => true
  end.

(** Every object of [v], at any depth, has its keys as a JavaScript object
    has them: each key once, array indices first and ascending. *)
Fixpoint well_formed (v : jsval) : bool :=
  match v with
  | VArray l => forallb well_formed l
  | VObject ps =>
      ordered (map fst ps) && forallb (fun kv => well_formed (snd kv)) ps
  | _ => true
  end.

(** The text that [save] writes for [v]: every [Infinity] of [v], at any
    depth, as the sentinel string, every other number that is not finite as
    [null]. *)
Fixpoint sentinel_text (v : jsval) : json :=
  match v with
  | VNull => JNull
  | VBool b => JBool b
  | VNumber (Num z) => JNumber (Num z)
  | VNumber (Dyadic m e) => JNumber (Dyadic m e)
  | VNumber NegZero => JNumber (Num 0)
  | VNumber Infinity => JString sentinel
  | VNumber NegInfinity | VNumber NaN => JNull
  | VString s => JString s
  | VArray l => JArray (map sentinel_text l)
  | VObject ps => JObject (map (fun kv => (fst kv, sentinel_text (snd kv))) ps)
  end.

(** [v] with every string value that is the sentinel, at any depth, replaced
    by [Infinity]. *)
Fixpoint revived (v : jsval) : jsval :=
  match v with
  | VString s => if String.eqb s sentinel then VNumber Infinity else v
  | VArray l => VArray (map revived l)
  | VObject ps => VObject (map (fun kv => (fst kv, revived (snd kv))) ps)
  | _ => v
  end.

(** [JSON.parse(text)] without a reviver. *)
Definition plain_parse (text : json) : jsval :=
  JSON_parse (fun _ v => v) text.

Fixpoint json_depth (j : json) : nat :=
  match j with
  | JArray l => S (list_max (map json_depth l))
  | JObject ps => S (list_max (map (fun kv => json_depth (snd kv)) ps))
  | _ => 0
  end.

(** ** Branch nodes and leaf nodes *)

Definition BranchNode : list Interface :=
  Alternative_union ++ [ICapturingGroup] ++ CharacterClass_union ++
  [ICharacterClassRange; IClassIntersection; IClassStringDisjunction;
   IClassSubtraction; IExpressionCharacterClass; IGroup] ++
  LookaroundAssertion_union ++ [IPattern; IQuantifier; IRegExpLiteral].

Definition LeafNode : list Interface :=
  [IBackreference] ++ BoundaryAssertion ++ [ICharacter] ++ CharacterSet ++
  [IFlags].

(** The node [c] sits in a slot of [q] whose declared type admits it, but the
    declared [parent] of [c] does not list [q]: a nested class or an
    expression class as the operand of a set operation. *)
Definition nested_operand (c q : Node) : Prop :=
  In (interface_of c) [IExpressionCharacterClass; IUnicodeSetsCharacterClass]
  /\ In (interface_of q) [IClassIntersection; IClassSubtraction].

(** ** The declared type of a fixture record *)

(** [v[k]] for a value [v]; [None] is [undefined]. *)
Definition property (k : string) (v : jsval) : option jsval :=
  match v with
  | VObject ps => lookup k ps
  | _ => None
  end.

(** The type [object]. *)
Definition is_object (v : jsval) : bool :=
  match v with
  | VObject _ | VArray _ => true
  | _ => false
  end.

(** [{ message: string; index: number }] *)
Definition is_error (v : jsval) : bool :=
  match property "message" v, property "index" v with
  | Some (VString _), Some (VNumber _) => true
  | _, _ => false
  end.

Definition has_ast (v : jsval) : bool :=
  match property "ast" v with
  | Some a => is_object a
  | None => false
  end.

Definition has_error (v : jsval) : bool :=
  match property "error" v with
  | Some e => is_error e
  | None => false
  end.

(** [{ ast: object } | { error: { message: string; index: number } }] *)
Definition is_pattern_result (v : jsval) : bool :=
  has_ast v || has_error v.

(** The [error.message] of [v] is the sentinel string. *)
Definition sentinel_message (v : jsval) : bool :=
  match property "error" v with
  | Some e =>
      match property "message" e with
      | Some (VString s) => String.eqb s sentinel
      | _ => false
      end
  | None => false
  end.

Definition patterns_of (v : jsval) : list (string * jsval) :=
  match property "patterns" v with
  | Some (VObject ps) => ps
  | _ => []
  end.

Section FixtureType.
(** The numbers of the type [EcmaVersion], which is declared in another
    file. *)
Variable is_EcmaVersion : Z -> bool.

(** [{ strict: boolean; ecmaVersion: EcmaVersion }] *)
Definition is_options (v : jsval) : bool :=
  match property "strict" v, property "ecmaVersion" v with
  | Some (VBool _), Some (VNumber (Num z)) => is_EcmaVersion z
  | _, _ => false
  end.

(** [FixtureData[string]], the type the loader casts every record to. *)
Definition is_fixture (v : jsval) : bool :=
  match property "options" v, property "patterns" v with
  | Some o, Some (VObject ps) =>
      is_options o && forallb (fun kv => is_pattern_result (snd kv)) ps
  | _, _ => false
  end.
End FixtureType.

(** ** Sample trees and fixture records *)

Definition chr (at_ : Z) (c : string) (code : Z) : Node :=
  Character (mkBase at_ (at_ + 1) c) code.

(** The pattern [a{2,}]. *)
Definition pattern_a2 : Node :=
  Pattern (mkBase 0 5 "a{2,}")
    [Alternative (mkBase 0 5 "a{2,}") false
       [Quantifier (mkBase 0 5 "a{2,}") (Num 2) Infinity true (chr 0 "a" 97)]].



(** The pattern [(?<n>a)\k<n>]. *)
Definition pattern_named : Node :=
  Pattern (mkBase 0 12 "(?<n>a)\k<n>")
    [Alternative (mkBase 0 12 "(?<n>a)\k<n>") false
       [CapturingGroup (mkBase 0 7 "(?<n>a)") (Some "n")
          [Alternative (mkBase 5 6 "a") false [chr 5 "a" 97]];
        Backreference (mkBase 7 12 "\k<n>") (inr "n")]].

(** The pattern [\2(a)(b)\1]: a forward and a backward numeric reference. *)
Definition pattern_numbered : Node :=
  Pattern (mkBase 0 10 "\2(a)(b)\1")
    [Alternative (mkBase 0 10 "\2(a)(b)\1") false
       [Backreference (mkBase 0 2 "\2") (inl 2);
        CapturingGroup (mkBase 2 5 "(a)") None
          [Alternative (mkBase 3 4 "a") false [chr 3 "a" 97]];
        CapturingGroup (mkBase 5 8 "(b)") None
          [Alternative (mkBase 6 7 "b") false [chr 6 "b" 98]];
        Backreference (mkBase 8 10 "\1") (inl 1)]].

(** The pattern [\k<missing>]. *)
Definition pattern_missing : Node :=
  Pattern (mkBase 0 11 "\k<missing>")
    [Alternative (mkBase 0 11 "\k<missing>") false
       [Backreference (mkBase 0 11 "\k<missing>") (inr "missing")]].

(** The pattern [\k<missing>a{2,1}]: a reference without a group, then a
    quantifier whose bounds are out of order. *)
Definition pattern_missing_a21 : Node :=
  Pattern (mkBase 0 17 "\k<missing>a{2,1}")
    [Alternative (mkBase 0 17 "\k<missing>a{2,1}") false
       [Backreference (mkBase 0 11 "\k<missing>") (inr "missing");
        Quantifier (mkBase 11 17 "a{2,1}") (Num 2) (Num 1) true
          (chr 11 "a" 97)]].

(** The pattern [\k<a>\k<b>]: two references without a group. *)
Definition pattern_two_missing : Node :=
  Pattern (mkBase 0 10 "\k<a>\k<b>")
    [Alternative (mkBase 0 10 "\k<a>\k<b>") false
       [Backreference (mkBase 0 5 "\k<a>") (inr "a");
        Backreference (mkBase 5 10 "\k<b>") (inr "b")]].

(** The pattern [[a--b]] in Unicode-sets mode. *)
Definition pattern_subtraction : Node :=
  Pattern (mkBase 0 6 "[a--b]")
    [Alternative (mkBase 0 6 "[a--b]") false
       [ExpressionCharacterClass (mkBase 0 6 "[a--b]") false
          (ClassSubtraction (mkBase 1 5 "a--b")
             (chr 1 "a" 97) (chr 4 "b" 98))]].

(** The pattern [[a&&b&&c]] in Unicode-sets mode. *)
Definition pattern_intersection : Node :=
  Pattern (mkBase 0 9 "[a&&b&&c]")
    [Alternative (mkBase 0 9 "[a&&b&&c]") false
       [ExpressionCharacterClass (mkBase 0 9 "[a&&b&&c]") false
          (ClassIntersection (mkBase 1 8 "a&&b&&c")
             (ClassIntersection (mkBase 1 5 "a&&b")
                (chr 1 "a" 97) (chr 4 "b" 98))
             (chr 7 "c" 99))]].

(** The pattern [[a-z\p{RGI_Emoji}]] in Unicode-sets mode and the pattern
    [[a-z\d]] in the classic mode. *)
Definition pattern_emoji : Node :=
  Pattern (mkBase 0 18 "[a-z\p{RGI_Emoji}]")
    [Alternative (mkBase 0 18 "[a-z\p{RGI_Emoji}]") false
       [CharacterClass (mkBase 0 18 "[a-z\p{RGI_Emoji}]") true false
          [CharacterClassRange (mkBase 1 4 "a-z")
             (chr 1 "a" 97) (chr 3 "z" 122);
           UnicodePropertyCharacterSet (mkBase 4 17 "\p{RGI_Emoji}") true
             "RGI_Emoji" None false]]].

Definition class_az_d (at_ : Z) : Node :=
  CharacterClass (mkBase at_ (at_ + 7) "[a-z\d]") false false
    [CharacterClassRange (mkBase (at_ + 1) (at_ + 4) "a-z")
       (chr (at_ + 1) "a" 97) (chr (at_ + 3) "z" 122);
     EscapeCharacterSet (mkBase (at_ + 4) (at_ + 6) "\d") digit false].

Definition pattern_class : Node :=
  Pattern (mkBase 0 7 "[a-z\d]")
    [Alternative (mkBase 0 7 "[a-z\d]") false [class_az_d 0]].

(** The literal [/[a-z\d]/gu]. *)
Definition literal_class : Node :=
  RegExpLiteral (mkBase 0 11 "/[a-z\d]/gu")
    (Pattern (mkBase 1 8 "[a-z\d]")
       [Alternative (mkBase 1 8 "[a-z\d]") false [class_az_d 1]])
    (Flags (mkBase 9 11 "gu") false true false false false false true false).

(** The pattern [a{2,1}] and the pattern [[z-a]]. *)
Definition pattern_a21 : Node :=
  Pattern (mkBase 0 6 "a{2,1}")
    [Alternative (mkBase 0 6 "a{2,1}") false
       [Quantifier (mkBase 0 6 "a{2,1}") (Num 2) (Num 1) true (chr 0 "a" 97)]].

Definition pattern_za : Node :=
  Pattern (mkBase 0 5 "[z-a]")
    [Alternative (mkBase 0 5 "[z-a]") false
       [CharacterClass (mkBase 0 5 "[z-a]") false false
          [CharacterClassRange (mkBase 1 4 "z-a")
             (chr 1 "z" 122) (chr 3 "a" 97)]]].

(** A node of the branch interface [i] that owns a node. *)
Definition a_branch (i : Interface) : Node :=
  let b := mkBase 0 1 "a" in
  let c := chr 0 "a" 97 in
  let alt := Alternative b false [c] in
  match i with
  | IDisjunctionAlternative => alt
  | IStringAlternative => Alternative b true [c]
  | ICapturingGroup => CapturingGroup b None [alt]
  | IClassRangesCharacterClass => CharacterClass b false false [c]
  | IUnicodeSetsCharacterClass => CharacterClass b true false [c]
  | ICharacterClassRange => CharacterClassRange b c c
  | IClassIntersection => ClassIntersection b c c
  | IClassStringDisjunction =>
      ClassStringDisjunction b [Alternative b true [c]]
  | IClassSubtraction => ClassSubtraction b c c
  | IExpressionCharacterClass =>
      ExpressionCharacterClass b false (ClassIntersection b c c)
  | IGroup => Group b [alt]
  | ILookaheadAssertion => LookaroundAssertion b lookahead false [alt]
  | ILookbehindAssertion => LookaroundAssertion b lookbehind false [alt]
  | IPattern => Pattern b [alt]
  | IQuantifier => Quantifier b (Num 0) Infinity true c
  | _ =>
      RegExpLiteral b (Pattern b [alt])
        (Flags b false false false false false false false false)
  end.

(** The pattern [[[a]&&[b]]] in Unicode-sets mode. *)
Definition pattern_nested : Node :=
  Pattern (mkBase 0 10 "[[a]&&[b]]")
    [Alternative (mkBase 0 10 "[[a]&&[b]]") false
       [ExpressionCharacterClass (mkBase 0 10 "[[a]&&[b]]") false
          (ClassIntersection (mkBase 1 9 "[a]&&[b]")
             (CharacterClass (mkBase 1 4 "[a]") true false [chr 2 "a" 97])
             (CharacterClass (mkBase 6 9 "[b]") true false
                [chr 7 "b" 98]))]].

Definition es2024 : Mode := mkMode 2024 true false.
Definition es2024_v : Mode := mkMode 2024 true true.

(** The text of a fixture file with two results. *)
Definition basic_text : json :=
  JObject
    [("options",
      JObject [("strict", JBool false); ("ecmaVersion", JNumber (Num 2024))]);
     ("patterns",
      JObject
        [("/a{2,}/",
          JObject
            [("ast",
              JObject
                [("type", JString "Quantifier"); ("min", JNumber (Num 2));
                 ("max", JString "$$Infinity")])]);
         ("/(/",
          JObject
            [("error",
              JObject
                [("message", JString "Unterminated group");
                 ("index", JNumber (Num 1))])])])].

(** A fixture text whose one result is an error with the message
    [$$Infinity]. *)
Definition message_text : json :=
  JObject
    [("options",
      JObject [("strict", JBool false); ("ecmaVersion", JNumber (Num 2024))]);
     ("patterns",
      JObject
        [("/(/",
          JObject
            [("error",
              JObject
                [("message", JString "$$Infinity");
                 ("index", JNumber (Num 1))])])])].

Definition es5_to_es2025 (z : Z) : bool :=
  Z.eqb z 5 || (Z.leb 2015 z && Z.leb z 2025).

(** The fixture object of the quantifier of [a{2,}]. *)
Definition quantifier_record : jsval :=
  VObject
    [("type", VString "Quantifier");
     ("start", VNumber (Num 0)); ("end", VNumber (Num 5));
     ("raw", VString "a{2,}"); ("min", VNumber (Num 2));
     ("max", VNumber Infinity); ("greedy", VBool true);
     ("element",
      VObject
        [("type", VString "Character");
         ("start", VNumber (Num 0)); ("end", VNumber (Num 1));
         ("raw", VString "a"); ("value", VNumber (Num 97))])].

Definition node_record (type_ : string) (from to : Z) (raw_ : string)
           (fields : list (string * jsval)) : jsval :=
  VObject
    ([("type", VString type_); ("start", VNumber (Num from));
      ("end", VNumber (Num to)); ("raw", VString raw_)] ++ fields).

Definition character_record (at_ : Z) (c : string) (code : Z) : jsval :=
  node_record "Character" at_ (at_ + 1) c [("value", VNumber (Num code))].

Definition end_assertion_record (at_ : Z) : jsval :=
  node_record "Assertion" at_ (at_ + 1) "$" [("kind", VString "end")].

(** A fixture file with the one source text [/$$Infinity/]: two end
    assertions and the characters of [Infinity].  The [raw] text of its
    pattern and of the alternative is the string [$$Infinity]. *)
Definition dollar_record : jsval :=
  VObject
    [("options",
      VObject [("strict", VBool false); ("ecmaVersion", VNumber (Num 2024))]);
     ("patterns",
      VObject
        [("/$$Infinity/",
          VObject
            [("ast",
              node_record "RegExpLiteral" 0 12 "/$$Infinity/"
                [("pattern",
                  node_record "Pattern" 1 11 "$$Infinity"
                    [("alternatives",
                      VArray
                        [node_record "Alternative" 1 11 "$$Infinity"
                           [("elements",
                             VArray
                               [end_assertion_record 1;
                                end_assertion_record 2;
                                character_record 3 "I" 73;
                                character_record 4 "n" 110;
                                character_record 5 "f" 102;
                                character_record 6 "i" 105;
                                character_record 7 "n" 110;
                                character_record 8 "i" 105;
                                character_record 9 "t" 116;
                                character_record 10 "y" 121])]])]);
                 ("flags", node_record "Flags" 12 12 EmptyString [])])])])].

(** * Properties *)

Unset Implicit Arguments.

(** ** Structural facts about the traversal *)

Lemma walk_eq (owner : option Node) (p : NodeId) (n : Node) :
  walk owner p n =
  mkEntry p owner n :: walk_list (walk (Some n)) p 0 (children n).
Proof. destruct n; reflexivity. Qed.

Lemma size_in_sum (c : Node) (l : list Node) :
  In c l -> (size c <= list_sum (map size l))%nat.
Proof.
  induction l as [|a l IH]; simpl; [tauto|].
  intros [->|H]; [lia|]. specialize (IH H). lia.
Qed.

Lemma size_children (n c : Node) :
  In c (children n) -> (size c < size n)%nat.
Proof.
  destruct n; simpl; intros H;
    try (apply size_in_sum in H; lia);
    try (destruct H as [<-|[<-|[]]]; lia);
    try (destruct H as [<-|[]]; lia);
    try contradiction.
Qed.

(** Induction over the ownership tree: a property holds of every node when it
    passes from the children of a node to the node. *)
Lemma Node_children_ind (P : Node -> Prop) :
  (forall n, (forall c, In c (children n) -> P c) -> P n) ->
  forall n, P n.
Proof.
  intros step n.
  remember (size n) as k eqn:Hk.
  revert n Hk.
  induction k as [k IH] using lt_wf_ind.
  intros n ->. apply step. intros c Hc.
  apply (IH (size c)); [apply size_children; exact Hc | reflexivity].
Qed.

Lemma in_walk_list (f : NodeId -> Node -> list entry) (p : NodeId)
      (l : list Node) (i : nat) (e : entry) :
  In e (walk_list f p i l) <->
  exists k c, nth_error l k = Some c /\ In e (f ((i + k)%nat :: p) c).
Proof.
  revert i. induction l as [|a l IH]; intros i; simpl.
  - split; [tauto|]. intros (k & c & H & _). destruct k; discriminate.
  - rewrite in_app_iff, IH. split.
    + intros [H|(k & c & Hk & H)].
      * exists 0%nat, a. rewrite Nat.add_0_r. auto.
      * exists (S k), c. rewrite Nat.add_succ_r. auto.
    + intros (k & c & Hk & H). destruct k as [|k]; simpl in Hk.
      * injection Hk as <-. rewrite Nat.add_0_r in H. auto.
      * right. exists k, c. rewrite Nat.add_succ_r in H. auto.
Qed.

Lemma in_walk (o : option Node) (p : NodeId) (n : Node) (e : entry) :
  In e (walk o p n) <->
  e = mkEntry p o n \/
  exists k c, nth_error (children n) k = Some c /\
              In e (walk (Some n) (k :: p) c).
Proof.
  rewrite walk_eq. simpl. rewrite in_walk_list. simpl.
  split; (intros [H|H]; [left; congruence | right; exact H]).
Qed.

(** Every identity below node [p] extends [p]. *)
Lemma walk_id_suffix (n : Node) :
  forall o p e, In e (walk o p n) -> exists q, eid e = q ++ p.
Proof.
  induction n as [n IH] using Node_children_ind.
  intros o p e H. apply in_walk in H.
  destruct H as [->|(k & c & Hk & H)].
  - exists []. reflexivity.
  - apply IH in H; [|eapply nth_error_In; eauto].
    destruct H as [q ->]. exists (q ++ [k]).
    rewrite <- app_assoc. reflexivity.
Qed.

Lemma suffix_index_inj (q q' p : NodeId) (i j : nat) :
  q ++ i :: p = q' ++ j :: p -> i = j.
Proof.
  intros H.
  change (q ++ [i] ++ p = q' ++ [j] ++ p) in H.
  rewrite !app_assoc in H. apply app_inv_tail in H.
  apply app_inj_tail in H. tauto.
Qed.

Lemma walk_list_NoDup (f : NodeId -> Node -> list entry) (p : NodeId)
      (l : list Node) :
  (forall c q e, In c l -> In e (f q c) -> exists r, eid e = r ++ q) ->
  (forall c q, In c l -> NoDup (map eid (f q c))) ->
  forall i, NoDup (map eid (walk_list f p i l)).
Proof.
  intros Hsuf. induction l as [|a l IH]; intros Hnd i; simpl.
  - constructor.
  - rewrite map_app. apply NoDup_app.
    + apply Hnd. left. reflexivity.
    + apply IH.
      * intros c q e Hc. apply Hsuf. right. exact Hc.
      * intros c q Hc. apply Hnd. right. exact Hc.
    + intros x Hx Hx'.
      apply in_map_iff in Hx. destruct Hx as (e & <- & He).
      apply in_map_iff in Hx'. destruct Hx' as (e' & Heq & He').
      apply Hsuf in He; [|left; reflexivity]. destruct He as [r Hr].
      apply in_walk_list in He'. destruct He' as (k & c & Hk & He').
      apply Hsuf in He'; [|right; eapply nth_error_In; eauto].
      destruct He' as [r' Hr'].
      rewrite Hr, Hr' in Heq. apply suffix_index_inj in Heq. lia.
Qed.

(** Distinct nodes of a tree have distinct identities. *)
Lemma walk_NoDup (n : Node) :
  forall o p, NoDup (map eid (walk o p n)).
Proof.
  induction n as [n IH] using Node_children_ind.
  intros o p. rewrite walk_eq. simpl. constructor.
  - intros H. apply in_map_iff in H. destruct H as (e & Heq & He).
    apply in_walk_list in He. destruct He as (k & c & Hk & He).
    apply walk_id_suffix in He. destruct He as [q Hq].
    rewrite Hq in Heq. apply (f_equal (@List.length nat)) in Heq.
    rewrite length_app in Heq. simpl in Heq. lia.
  - apply walk_list_NoDup.
    + intros c q e _ He. eapply walk_id_suffix; eauto.
    + intros c q Hc. apply IH. exact Hc.
Qed.

Lemma entries_NoDup (root : Node) : NoDup (map eid (entries root)).
Proof. apply walk_NoDup. Qed.

(** The [parent] of a node other than the root is the node that owns it: it
    is a node of the same tree, one step up, and holds the node in one of its
    child slots. *)
Lemma walk_parent (n : Node) :
  forall o p e, In e (walk o p n) ->
    e = mkEntry p o n \/
    exists pe i, In pe (walk o p n) /\ eparent e = Some (enode pe) /\
                 eid e = i :: eid pe /\
                 nth_error (children (enode pe)) i = Some (enode e).
Proof.
  induction n as [n IH] using Node_children_ind.
  intros o p e H. apply in_walk in H.
  destruct H as [->|(k & c & Hk & H)]; [left; reflexivity|right].
  destruct (IH c (nth_error_In _ _ Hk) _ _ _ H)
    as [->|(pe & i & Hpe & Hpar & Hid & Hch)].
  - exists (mkEntry p o n), k. simpl. repeat split; auto.
    apply in_walk. left. reflexivity.
  - exists pe, i. repeat split; auto.
    apply in_walk. right. exists k, c. auto.
Qed.



(** A node owns the nodes in its child slots: each of them is a node of the
    tree, one step down, with the node as its [parent]. *)
Lemma walk_child (n : Node) :
  forall o p e, In e (walk o p n) ->
    forall k c, nth_error (children (enode e)) k = Some c ->
      In (mkEntry (k :: eid e) (Some (enode e)) c) (walk o p n).
Proof.
  induction n as [n IH] using Node_children_ind.
  intros o p e H k c Hk. apply in_walk in H. apply in_walk. right.
  destruct H as [->|(k' & c' & Hk' & H)]; simpl in *.
  - exists k, c. split; [exact Hk|]. apply in_walk. left. reflexivity.
  - exists k', c'. split; [exact Hk'|].
    apply (IH c' (nth_error_In _ _ Hk') _ _ _ H). exact Hk.
Qed.

(** ** The declared types, node by node *)

Lemma mem_In (i : Interface) (u : list Interface) :
  mem i u = true <-> In i u.
Proof.
  unfold mem. destruct (in_dec Interface_eq_dec i u); split;
    (congruence || tauto).
Qed.

Lemma well_typed_entry (root : Node) (e : entry) :
  well_typed root = true -> In e (entries root) ->
  fields_ok (enode e) = true.
Proof.
  unfold well_typed. rewrite forallb_forall. intros H He. exact (H e He).
Qed.

Lemma quantifiable_iff (n : Node) :
  is_a QuantifiableElement n = true <-> quantifiable n.
Proof.
  unfold is_a, quantifiable. rewrite mem_In.
  unfold QuantifiableElement, CharacterClass_union, CharacterSet,
    UnicodePropertyCharacterSet_union. simpl.
  split; intros H; repeat (destruct H as [H|H]); auto 20; try contradiction;
    rewrite H; auto 20.
Qed.

(** C3 -- Quantifiable-element closure.  In a tree whose fields have the
    declared types, the [element] of every [Quantifier] is one of the eight
    variants Backreference, CapturingGroup, Character, CharacterClass,
    CharacterSet, ExpressionCharacterClass, Group and LookaheadAssertion, the
    slot admits every one of the eight, and the element is never a lookbehind
    assertion, an edge assertion or a word-boundary assertion. *)
Theorem quantifier_element_closure
        (root : Node) (e : entry) (b : NodeBase) (mn mx : number)
        (g : bool) (el : Node) :
  well_typed root = true ->
  In e (entries root) ->
  enode e = Quantifier b mn mx g el ->
  quantifiable el /\
  (forall x, quantifiable x -> fields_ok (Quantifier b mn mx g x) = true) /\
  interface_of el <> ILookbehindAssertion /\
  interface_of el <> IEdgeAssertion /\
  interface_of el <> IWordBoundaryAssertion.
Proof.
  intros Hwt He Hq.
  pose proof (well_typed_entry root e Hwt He) as Hf.
  rewrite Hq in Hf. simpl in Hf. apply quantifiable_iff in Hf.
  split; [exact Hf|]. split.
  - intros x Hx. simpl. apply quantifiable_iff. exact Hx.
  - unfold quantifiable, CharacterClass_union, CharacterSet,
      UnicodePropertyCharacterSet_union in Hf. simpl in Hf.
    repeat split; intros Habs; rewrite Habs in Hf;
      repeat (destruct Hf as [Hf|Hf]); try discriminate; contradiction.
Qed.

Lemma quantifier_element_closure_pattern_a2 :
  quantifiable (chr 0 "a" 97) /\
  interface_of (chr 0 "a" 97) <> ILookbehindAssertion.
Proof.
  destruct (quantifier_element_closure pattern_a2
              (mkEntry [0%nat; 0%nat]
                 (Some (Alternative (mkBase 0 5 "a{2,}") false
                    [Quantifier (mkBase 0 5 "a{2,}") (Num 2) Infinity true
                       (chr 0 "a" 97)]))
                 (Quantifier (mkBase 0 5 "a{2,}") (Num 2) Infinity true
                    (chr 0 "a" 97)))
              (mkBase 0 5 "a{2,}") (Num 2) Infinity true (chr 0 "a" 97))
    as (H1 & _ & H2 & _).
  - reflexivity.
  - simpl. right. right. left. reflexivity.
  - reflexivity.
  - split; assumption.
Defined.

(** The declared [parent] of an edge or word-boundary assertion admits
    [Quantifier], but the [element] slot of [Quantifier] does not admit the
    assertion: in a tree whose fields have the declared types no boundary
    assertion and no lookbehind is owned by a [Quantifier]. *)
Lemma assertion_not_under_quantifier (root : Node) (e : entry) (q : Node) :
  well_typed root = true ->
  In e (entries root) ->
  In (interface_of (enode e)) (ILookbehindAssertion :: BoundaryAssertion) ->
  eparent e = Some q ->
  In (Some IQuantifier) (parent_types IEdgeAssertion) /\
  interface_of q <> IQuantifier.
Proof.
  intros Hwt He Hk Hq. split; [simpl; auto|].
  destruct (walk_parent root None [] e He)
    as [->|(pe & i & Hpe & Hpar & _ & Hch)]; [discriminate|].
  rewrite Hq in Hpar. injection Hpar as ->.
  pose proof (well_typed_entry root pe Hwt Hpe) as Hf.
  intros Hi. revert Hf Hch Hi.
  destruct (enode pe) as
    [ | | ? s ? | | | ? k ? ? | ? ? ? ? el | ? u ? ? | | | | | | ? u ? ? ?
    | | | | | | | ];
    try destruct s; try destruct k; try destruct u; try discriminate.
  simpl. intros Hf Hch _. apply quantifiable_iff in Hf.
  destruct i as [|[|i]]; try discriminate. injection Hch as Hch.
  rewrite Hch in Hf.
  unfold quantifiable, CharacterClass_union, CharacterSet,
    UnicodePropertyCharacterSet_union in Hf.
  simpl in Hf, Hk.
  destruct Hk as [Hk|[Hk|[Hk|[]]]]; rewrite <- Hk in Hf;
    repeat (destruct Hf as [Hf|Hf]); try discriminate; contradiction.
Qed.

Lemma operand_not_operator (n : Node) :
  In (interface_of n) ClassSetOperand ->
  interface_of n <> IClassIntersection /\ interface_of n <> IClassSubtraction.
Proof.
  unfold ClassSetOperand, UnicodePropertyCharacterSet_union. simpl.
  intros H; split; intros Habs; rewrite Habs in H;
    repeat (destruct H as [H|H]); try discriminate; contradiction.
Qed.

(** C6 -- Set-operator asymmetry.  In a tree whose fields have the declared
    types, the [left] of a [ClassIntersection] is a [ClassIntersection] or a
    plain [ClassSetOperand] and its [right] is a plain operand, never an
    intersection or a subtraction; the same holds of [ClassSubtraction] with
    [ClassSubtraction] on the left. *)
Theorem set_operator_asymmetry (root : Node) (e : entry) :
  well_typed root = true ->
  In e (entries root) ->
  (forall b l r, enode e = ClassIntersection b l r ->
     (interface_of l = IClassIntersection \/
      In (interface_of l) ClassSetOperand) /\
     In (interface_of r) ClassSetOperand /\
     interface_of r <> IClassIntersection /\
     interface_of r <> IClassSubtraction) /\
  (forall b l r, enode e = ClassSubtraction b l r ->
     (interface_of l = IClassSubtraction \/
      In (interface_of l) ClassSetOperand) /\
     In (interface_of r) ClassSetOperand /\
     interface_of r <> IClassIntersection /\
     interface_of r <> IClassSubtraction).
Proof.
  intros Hwt He.
  pose proof (well_typed_entry root e Hwt He) as Hf.
  split; intros b l r Heq; rewrite Heq in Hf; cbn [fields_ok] in Hf;
    apply andb_true_iff in Hf; destruct Hf as [Hl Hr];
    unfold is_a in Hl, Hr; rewrite mem_In in Hl, Hr;
    (split; [|split; [exact Hr | apply operand_not_operator; exact Hr]]).
  - destruct Hl as [Hl|Hl]; [left; symmetry; exact Hl | right; exact Hl].
  - apply in_app_or in Hl. destruct Hl as [Hl|[Hl|[]]];
      [right; exact Hl | left; symmetry; exact Hl].
Qed.

Lemma set_operator_asymmetry_chain :
  interface_of (ClassIntersection (mkBase 1 5 "a&&b")
                  (chr 1 "a" 97) (chr 4 "b" 98)) = IClassIntersection /\
  In (interface_of (chr 7 "c" 99)) ClassSetOperand.
Proof.
  pose proof (set_operator_asymmetry pattern_intersection
                (nth 3 (entries pattern_intersection)
                   (mkEntry [] None pattern_intersection))) as H.
  destruct H as [H _].
  - reflexivity.
  - vm_compute. auto 10.
  - destruct (H (mkBase 1 8 "a&&b&&c")
                (ClassIntersection (mkBase 1 5 "a&&b")
                   (chr 1 "a" 97) (chr 4 "b" 98))
                (chr 7 "c" 99)) as (_ & Hr & _).
    + reflexivity.
    + split; [reflexivity | exact Hr].
Defined.

(** C9 -- Strings-valued property escape.  In a tree whose fields have the
    declared types, a [UnicodePropertyCharacterSet] with [strings = true] has
    [value = null] and [negate = false]. *)
Theorem strings_property_shape
        (root : Node) (e : entry) (b : NodeBase) (k : string)
        (v : option string) (ng : bool) :
  well_typed root = true ->
  In e (entries root) ->
  enode e = UnicodePropertyCharacterSet b true k v ng ->
  v = None /\ ng = false.
Proof.
  intros Hwt He Heq.
  pose proof (well_typed_entry root e Hwt He) as Hf.
  rewrite Heq in Hf. simpl in Hf.
  destruct v; [discriminate|]. destruct ng; [discriminate|]. tauto.
Qed.

Lemma strings_property_shape_emoji :
  @None string = None /\ false = false.
Proof.
  apply (strings_property_shape pattern_emoji
           (nth 6 (entries pattern_emoji) (mkEntry [] None pattern_emoji))
           (mkBase 4 17 "\p{RGI_Emoji}") "RGI_Emoji" None false).
  - reflexivity.
  - vm_compute. auto 10.
  - reflexivity.
Defined.

(** ** The [parent] link *)




(** ** What a successful construction guarantees *)

Lemma first_error_none (m : Mode) (es : list entry) :
  first_error m es = None ->
  forall e, In e es -> check_node m (enode e) = None.
Proof.
  induction es as [|a es IH]; simpl; [tauto|].
  destruct (check_node m (enode a)) eqn:Ha; [discriminate|].
  intros H e [<-|He]; [exact Ha | exact (IH H e He)].
Qed.

Lemma check_node_none (m : Mode) (n : Node) :
  check_node m n = None -> mode_gate m n = true /\ range_ok n = true.
Proof.
  unfold check_node.
  destruct (mode_gate m n); simpl; [|discriminate].
  destruct (range_ok n); simpl; [tauto | discriminate].
Qed.

Lemma build_tree_ok (m : Mode) (root t : Node) :
  build_tree m root = Ok t ->
  t = root /\
  forall e, In e (entries root) ->
    mode_gate m (enode e) = true /\ range_ok (enode e) = true.
Proof.
  unfold build_tree. destruct (first_error m (entries root)) eqn:H;
    [discriminate|].
  intros [= <-]. split; [reflexivity|].
  intros e He. apply check_node_none. eapply first_error_none; eauto.
Qed.

Lemma build_ok (rule : entry -> list entry -> entry) (m : Mode)
      (root : Node) (T : Tree) :
  build rule m root = Ok T ->
  tree_root T = root /\ build_tree m root = Ok root /\
  resolve rule root = Ok (tree_links T).
Proof.
  unfold build. destruct (build_tree m root) as [t|err] eqn:Hb;
    [|discriminate].
  destruct (build_tree_ok _ _ _ Hb) as [-> _].
  destruct (resolve rule root) as [ls|err] eqn:Hr; [|discriminate].
  intros [= <-]. simpl. auto.
Qed.

Lemma gate_unicode_sets_only (m : Mode) (n : Node) :
  mode_gate m n = true -> In (interface_of n) UnicodeSetsOnly ->
  mode_unicodeSets m = true.
Proof.
  unfold UnicodeSetsOnly.
  destruct n; simpl; intros Hg Hin;
    repeat match goal with
           | b : bool |- _ => destruct b
           | k : LookaroundKind |- _ => destruct k
           end; simpl in *;
    repeat (destruct Hin as [Hin|Hin]); try discriminate;
    try contradiction; try exact Hg.
  all: revert Hg; destruct (mode_unicodeSets m); simpl; congruence.
Qed.

Lemma gate_class_ranges (m : Mode) (n : Node) :
  mode_gate m n = true -> interface_of n = IClassRangesCharacterClass ->
  mode_unicodeSets m = false.
Proof.
  destruct n; simpl; intros Hg Hi;
    repeat match goal with
           | b : bool |- _ => destruct b
           | k : LookaroundKind |- _ => destruct k
           end; try discriminate.
  all: revert Hg; destruct (mode_unicodeSets m); simpl; congruence.
Qed.

(** C4 -- Mode exclusivity.  In every tree that the construction produces, no
    [Flags] node has both [unicode] and [unicodeSets]; the tree does not hold
    a [ClassRangesCharacterClass] together with a construct that is legal in
    Unicode-sets mode only; in particular no element of a
    [ClassRangesCharacterClass] is a string disjunction, a strings-valued
    property, a nested class or an expression class. *)
Theorem mode_exclusivity
        (rule : entry -> list entry -> entry) (m : Mode) (root : Node)
        (T : Tree) :
  build rule m root = Ok T ->
  (forall e b d g h i ml s u v,
     In e (entries (tree_root T)) ->
     enode e = Flags b d g h i ml s u v -> u && v = false) /\
  (forall e1 e2,
     In e1 (entries (tree_root T)) -> In e2 (entries (tree_root T)) ->
     interface_of (enode e1) = IClassRangesCharacterClass ->
     ~ In (interface_of (enode e2)) UnicodeSetsOnly) /\
  (forall e b ng els x,
     In e (entries (tree_root T)) ->
     enode e = CharacterClass b false ng els -> In x els ->
     ~ In (interface_of x) UnicodeSetsOnly).
Proof.
  intros Hb. destruct (build_ok _ _ _ _ Hb) as (-> & Ht & _).
  destruct (build_tree_ok _ _ _ Ht) as [_ Hall].
  assert (Hex : forall e1 e2,
             In e1 (entries root) -> In e2 (entries root) ->
             interface_of (enode e1) = IClassRangesCharacterClass ->
             ~ In (interface_of (enode e2)) UnicodeSetsOnly).
  { intros e1 e2 H1 H2 Hc Hu.
    destruct (Hall e1 H1) as [G1 _]. destruct (Hall e2 H2) as [G2 _].
    pose proof (gate_class_ranges _ _ G1 Hc) as F.
    pose proof (gate_unicode_sets_only _ _ G2 Hu) as F'.
    congruence. }
  split; [|split].
  - intros e b d g h i ml s u v He Heq.
    destruct (Hall e He) as [G _]. rewrite Heq in G. simpl in G.
    destruct (u && v); [discriminate | reflexivity].
  - exact Hex.
  - intros e b ng els x He Heq Hx.
    apply In_nth_error in Hx. destruct Hx as [k Hk].
    assert (Hc : nth_error (children (enode e)) k = Some x)
      by (rewrite Heq; exact Hk).
    pose proof (walk_child root None [] e He k x Hc) as Hin.
    apply (Hex e _ He Hin). rewrite Heq. reflexivity.
Qed.

Lemma mode_exclusivity_literal_class :
  true && false = false /\
  ~ In (interface_of (EscapeCharacterSet (mkBase 5 7 "\d") digit false))
       UnicodeSetsOnly.
Proof.
  destruct (mode_exclusivity first_in_source es2024 literal_class
              (mkTree literal_class no_links)) as (Hf & _ & Hc).
  - reflexivity.
  - split.
    + apply (Hf (nth 8 (entries literal_class)
                   (mkEntry [] None literal_class))
                (mkBase 9 11 "gu") false true false false false false).
      * vm_compute. auto 20.
      * reflexivity.
    + apply (Hc (nth 3 (entries literal_class)
                   (mkEntry [] None literal_class))
                (mkBase 1 8 "[a-z\d]") false
                [CharacterClassRange (mkBase 2 5 "a-z")
                   (chr 2 "a" 97) (chr 4 "z" 122);
                 EscapeCharacterSet (mkBase 5 7 "\d") digit false]).
      * vm_compute. auto 20.
      * reflexivity.
      * right. left. reflexivity.
Defined.

Lemma number_leb_le (a b : number) :
  number_leb a b = true <-> number_le a b.
Proof.
  destruct a, b; simpl; try tauto; try apply Z.leb_le;
    split; (discriminate || contradiction).
Qed.

(** C5 -- Malformed-range invariant.  In every tree that the construction
    produces, [0 <= min <= max] holds of every [Quantifier] ([max] may be
    [Infinity]) and [min.value <= max.value] of every
    [CharacterClassRange]. *)
Theorem range_invariant
        (rule : entry -> list entry -> entry) (m : Mode) (root : Node)
        (T : Tree) (e : entry) :
  build rule m root = Ok T ->
  In e (entries (tree_root T)) ->
  (forall b mn mx g el, enode e = Quantifier b mn mx g el ->
     number_le (Num 0) mn /\ number_le mn mx) /\
  (forall b b1 v1 b2 v2,
     enode e = CharacterClassRange b (Character b1 v1) (Character b2 v2) ->
     v1 <= v2).
Proof.
  intros Hb He. destruct (build_ok _ _ _ _ Hb) as (Hroot & Ht & _).
  rewrite Hroot in He.
  destruct (build_tree_ok _ _ _ Ht) as [_ Hall].
  destruct (Hall e He) as [_ Hr].
  split.
  - intros b mn mx g el Heq. rewrite Heq in Hr. simpl in Hr.
    apply andb_true_iff in Hr. destruct Hr as [H0 H1].
    split; apply number_leb_le; assumption.
  - intros b b1 v1 b2 v2 Heq. rewrite Heq in Hr. simpl in Hr.
    apply Z.leb_le. exact Hr.
Qed.

Lemma range_invariant_pattern_a2 :
  number_le (Num 0) (Num 2) /\ number_le (Num 2) Infinity.
Proof.
  destruct (range_invariant first_in_source es2024 pattern_a2
              (mkTree pattern_a2 no_links)
              (nth 2 (entries pattern_a2) (mkEntry [] None pattern_a2)))
    as [Hq _].
  - reflexivity.
  - vm_compute. auto 10.
  - apply (Hq (mkBase 0 5 "a{2,}") (Num 2) Infinity true (chr 0 "a" 97)).
    reflexivity.
Defined.

(** ** The resolver *)

Lemma id_eqb_eq (a b : NodeId) : id_eqb a b = true <-> a = b.
Proof.
  unfold id_eqb. destruct (NodeId_eq_dec a b); split; congruence.
Qed.

Lemma id_eqb_refl (a : NodeId) : id_eqb a a = true.
Proof. apply id_eqb_eq. reflexivity. Qed.

Lemma id_eqb_neq (a b : NodeId) : a <> b -> id_eqb a b = false.
Proof.
  intros H. destruct (id_eqb a b) eqn:E; [|reflexivity].
  apply id_eqb_eq in E. contradiction.
Qed.


(** Selecting nodes of a tree keeps their identities distinct. *)
Lemma filter_ids_NoDup (keep : entry -> bool) (es : list entry) :
  NoDup (map eid es) -> NoDup (map eid (filter keep es)).
Proof.
  induction es as [|e es IH]; simpl; intros Hnd; [exact Hnd|].
  apply NoDup_cons_iff in Hnd. destruct Hnd as [Hfresh Hrest].
  destruct (keep e); simpl; [|exact (IH Hrest)].
  apply NoDup_cons; [|exact (IH Hrest)].
  rewrite in_map_iff. intros (x & Hx & Hin).
  apply filter_In in Hin. apply Hfresh.
  rewrite in_map_iff. exists x. tauto.
Qed.

Section ResolverFacts.
Variable rule : entry -> list entry -> entry.



Hypothesis rule_in : forall b gs, gs <> [] -> In (rule b gs) gs.

Lemma find_group_in (groups : list entry) (b g : entry) :
  find_group rule groups b = Some g -> In g groups.
Proof.
  unfold find_group. destruct (enode b); try discriminate.
  destruct ref as [k|s].
  - destruct (Z.leb 1 k); [|discriminate]. apply nth_error_In.
  - destruct (filter (has_name s) groups) as [|g0 [|g1 gs]] eqn:Hf;
      [discriminate| |]; intros [= <-].
    + assert (Hin : In g0 (filter (has_name s) groups))
        by (rewrite Hf; left; reflexivity).
      apply filter_In in Hin. tauto.
    + assert (Hin : In (rule b (g0 :: g1 :: gs)) (filter (has_name s) groups))
        by (rewrite Hf; apply rule_in; discriminate).
      apply filter_In in Hin. tauto.
Qed.

Lemma links_of_link (groups done : list entry) (st : Links) (b g : entry) :
  links_of groups done st ->
  ~ In (eid b) (map eid done) ->
  In g groups ->
  links_of groups (done ++ [b]) (link (eid b) (eid g) st).
Proof.
  intros (Hdom & Htot & Hinv) Hfresh Hg.
  assert (Hnone : resolved st (eid b) = None).
  { destruct (resolved st (eid b)) as [g0|] eqn:E; [|reflexivity].
    exfalso. apply Hfresh. destruct (Hdom _ _ E) as [(b0 & Hb0 & Heq) _].
    apply in_map_iff. exists b0. auto. }
  split; [|split]; simpl.
  - intros x g0. destruct (id_eqb x (eid b)) eqn:E.
    + apply id_eqb_eq in E. intros [= <-]. split.
      * exists b. split; [apply in_or_app; right; left; reflexivity | auto].
      * exists g. auto.
    + intros H. destruct (Hdom _ _ H) as [(b0 & Hb0 & Heq) Hge].
      split; [|exact Hge]. exists b0. split; [|exact Heq].
      apply in_or_app. left. exact Hb0.
  - intros b0 Hb0. destruct (id_eqb (eid b0) (eid b)) eqn:E.
    + exists (eid g). reflexivity.
    + apply in_app_or in Hb0. destruct Hb0 as [Hb0|[<-|[]]].
      * apply Htot. exact Hb0.
      * rewrite id_eqb_refl in E. discriminate.
  - intros g0 x.
    destruct (id_eqb x (eid b)) eqn:Ex; destruct (id_eqb g0 (eid g)) eqn:Eg.
    + apply id_eqb_eq in Ex, Eg. subst. split; [reflexivity|].
      intros _. apply in_or_app. right. left. reflexivity.
    + apply id_eqb_eq in Ex. subst x. rewrite Hinv, Hnone.
      split; [discriminate|]. intros [= Heq]. rewrite Heq in Eg.
      rewrite id_eqb_refl in Eg. discriminate.
    + rewrite in_app_iff, Hinv. split; [|tauto].
      intros [H|[H|[]]]; [exact H|]. subst x.
      rewrite id_eqb_refl in Ex. discriminate.
    + apply Hinv.
Qed.

Lemma resolve_refs_links (groups bs : list entry) :
  forall done st ls,
    NoDup (map eid (done ++ bs)) ->
    links_of groups done st ->
    resolve_refs rule groups bs st = Ok ls ->
    links_of groups (done ++ bs) ls.
Proof.
  induction bs as [|b bs IH]; intros done st ls Hnd Hinv; simpl.
  - intros [= <-]. rewrite app_nil_r. exact Hinv.
  - destruct (find_group rule groups b) as [g|] eqn:Hg; [|discriminate].
    intros Hres.
    replace (done ++ b :: bs) with ((done ++ [b]) ++ bs) in *
      by (rewrite <- app_assoc; reflexivity).
    apply (IH (done ++ [b]) (link (eid b) (eid g) st) ls Hnd); [|exact Hres].
    apply links_of_link; [exact Hinv | | eapply find_group_in; eauto].
    rewrite map_app, map_app in Hnd. apply NoDup_app_remove_r in Hnd.
    simpl in Hnd. apply NoDup_remove_2 in Hnd.
    rewrite app_nil_r in Hnd. exact Hnd.
Qed.

Lemma resolve_links (root : Node) (ls : Links) :
  resolve rule root = Ok ls ->
  links_of (capturing_groups root) (backreferences root) ls.
Proof.
  intros H.
  apply (resolve_refs_links (capturing_groups root) (backreferences root)
           [] no_links ls); [| |exact H].
  - simpl. apply filter_ids_NoDup. apply entries_NoDup.
  - split; [|split]; simpl.
    + discriminate.
    + intros b [].
    + intros g x. split; [intros [] | discriminate].
Qed.
End ResolverFacts.

Lemma first_in_source_in (b : entry) (gs : list entry) :
  gs <> [] -> In (first_in_source b gs) gs.
Proof.
  destruct gs as [|g gs]; [congruence|]. intros _. left. reflexivity.
Qed.


(** C1 -- Resolution totality and bidirectional consistency.  In every tree
    that the construction produces, under a scoping rule that binds a named
    reference to one of the groups of that name: [resolved] of every
    [Backreference] is set and is a [CapturingGroup] of the same tree; every
    entry of the [references] of a [CapturingGroup] is a [Backreference] of
    the tree whose [resolved] is that group; and [references] holds every
    backreference that resolves to the group. *)
Theorem resolution_total_and_consistent
        (rule : entry -> list entry -> entry) (m : Mode) (root : Node)
        (T : Tree) :
  (forall b gs, gs <> [] -> In (rule b gs) gs) ->
  build rule m root = Ok T ->
  (forall b, In b (entries (tree_root T)) -> is_backreference b = true ->
     exists g, resolved (tree_links T) (eid b) = Some (eid g) /\
               In g (entries (tree_root T)) /\
               is_capturing_group g = true) /\
  (forall g x, In g (entries (tree_root T)) -> is_capturing_group g = true ->
     In x (references (tree_links T) (eid g)) ->
     exists b, In b (entries (tree_root T)) /\ is_backreference b = true /\
               eid b = x /\ resolved (tree_links T) x = Some (eid g)) /\
  (forall x g, resolved (tree_links T) x = Some g ->
     In x (references (tree_links T) g)).
Proof.
  intros Hrule Hb. destruct (build_ok _ _ _ _ Hb) as (-> & _ & Hres).
  destruct (resolve_links rule Hrule root _ Hres) as (Hdom & Htot & Hinv).
  split; [|split].
  - intros b Hin Hbr.
    destruct (Htot b) as [g0 Hg0].
    { apply filter_In. auto. }
    destruct (Hdom _ _ Hg0) as [_ (ge & Hge & <-)].
    apply filter_In in Hge. exists ge. tauto.
  - intros g x Hg Hcap Hx. apply Hinv in Hx.
    destruct (Hdom _ _ Hx) as [(b & Hbin & <-) _].
    apply filter_In in Hbin. exists b. tauto.
  - intros x g Hx. apply Hinv. exact Hx.
Qed.

Lemma resolution_total_and_consistent_named :
  exists g,
    resolved (link [1%nat; 0%nat] [0%nat; 0%nat] no_links)
      [1%nat; 0%nat] = Some (eid g) /\
    In g (entries pattern_named) /\ is_capturing_group g = true.
Proof.
  destruct (resolution_total_and_consistent first_in_source es2024
              pattern_named
              (mkTree pattern_named
                 (link [1%nat; 0%nat] [0%nat; 0%nat] no_links)))
    as (Ha & _).
  - exact first_in_source_in.
  - reflexivity.
  - apply (Ha (nth 5 (entries pattern_named)
                 (mkEntry [] None pattern_named))).
    + vm_compute. auto 10.
    + reflexivity.
Defined.




(** ** The scenarios of the specification *)

Example scenario_a2 :
  build first_in_source es2024 pattern_a2 = Ok (mkTree pattern_a2 no_links).
Proof. reflexivity. Qed.

Example scenario_named :
  match build first_in_source es2024 pattern_named with
  | Ok T =>
      resolved (tree_links T) [1%nat; 0%nat] = Some [0%nat; 0%nat] /\
      references (tree_links T) [0%nat; 0%nat] = [[1%nat; 0%nat]]
  | Err _ => False
  end.
Proof. vm_compute. split; reflexivity. Qed.

Example scenario_forward_reference :
  match build first_in_source es2024 pattern_numbered with
  | Ok T =>
      resolved (tree_links T) [0%nat; 0%nat] = Some [2%nat; 0%nat] /\
      resolved (tree_links T) [3%nat; 0%nat] = Some [1%nat; 0%nat] /\
      references (tree_links T) [2%nat; 0%nat] = [[0%nat; 0%nat]]
  | Err _ => False
  end.
Proof. vm_compute. repeat split; reflexivity. Qed.

Example scenario_missing :
  build first_in_source es2024 pattern_missing =
  Err (mkError UnresolvedReference 0 11).
Proof. reflexivity. Qed.

(** Of two references without a group the first one is reported, in every
    mode, and the second one is not. *)
Example two_missing_first_reported (m : Mode) :
  build first_in_source m pattern_two_missing =
  Err (mkError UnresolvedReference 0 5).
Proof. reflexivity. Qed.

(** The order violation is reported before the reference without a group, in
    every mode. *)
Example missing_a21_range_reported (m : Mode) :
  build first_in_source m pattern_missing_a21 =
  Err (mkError MalformedRange 11 17).
Proof. reflexivity. Qed.

Example scenario_subtraction_classic :
  build first_in_source es2024 pattern_subtraction =
  Err (mkError UnsupportedConstruct 0 6).
Proof. reflexivity. Qed.

Example scenario_subtraction_unicode_sets :
  build first_in_source es2024_v pattern_subtraction =
  Ok (mkTree pattern_subtraction no_links).
Proof. reflexivity. Qed.

Example scenario_out_of_order :
  build first_in_source es2024 pattern_a21 =
  Err (mkError MalformedRange 0 6) /\
  build first_in_source es2024 pattern_za =
  Err (mkError MalformedRange 1 4).
Proof. split; reflexivity. Qed.

(** ** The declarations against each other *)

Ltac slot_types :=
  repeat match goal with
         | H : _ && _ = true |- _ =>
             apply andb_true_iff in H; destruct H
         | H : forallb _ ?l = true, Hc : In _ ?l |- _ =>
             rewrite forallb_forall in H; specialize (H _ Hc)
         | H : @In Node _ (_ :: _) |- _ => destruct H as [<-|H]
         | H : @In Node _ [] |- _ => destruct H
         | H : is_a _ _ = true |- _ =>
             unfold is_a in H; rewrite mem_In in H
         end.

Ltac each_interface H :=
  cbv [Element Assertion BoundaryAssertion LookaroundAssertion_union
       QuantifiableElement CharacterClass_union CharacterSet
       UnicodePropertyCharacterSet_union ClassRangesCharacterClassElement
       UnicodeSetsCharacterClassElement ClassSetOperand Alternative_union
       app In] in H;
  repeat (destruct H as [H|H]); [ .. | destruct H ].

(** A slot admits a node only if the declared [parent] of the node lists the
    owner, with one exception. *)
Lemma slot_parent_declared (q c : Node) :
  fields_ok q = true ->
  In c (children q) ->
  In (Some (interface_of q)) (parent_types (interface_of c)) \/
  nested_operand c q.
Proof.
  unfold nested_operand.
  destruct q as
    [ ? pat fl | ? alts | ? s els | ? alts | ? ? alts | ? k ? alts
    | ? ? ? ? el | ? u ? els | ? a b | | | | | | ? ? ex | ? l r | ? l r
    | ? alts | | | ];
    try destruct s; try destruct k; try destruct u;
    cbn [fields_ok children]; intros Hf Hc; slot_types;
    match goal with
    | H : In (interface_of _) _ |- _ =>
        each_interface H; rewrite <- H; cbn; auto 20
    end.
Qed.

Lemma nested_operand_undeclared (c q : Node) :
  nested_operand c q ->
  ~ In (Some (interface_of q)) (parent_types (interface_of c)).
Proof.
  intros [Hc Hq] Hin. simpl in Hc, Hq.
  destruct Hc as [Hc|[Hc|[]]]; destruct Hq as [Hq|[Hq|[]]];
    rewrite <- Hc, <- Hq in Hin; simpl in Hin;
    repeat (destruct Hin as [Hin|Hin]); try discriminate; contradiction.
Qed.

(** Parent consistency of the declarations.  For a node whose fields have
    the declared types and a node it owns, the declared [parent] of the owned
    node lists the owner except in one case, and in that case never: the
    owned node is an [ExpressionCharacterClass] or a
    [UnicodeSetsCharacterClass] and the owner a [ClassIntersection] or a
    [ClassSubtraction]. *)
Theorem owner_is_declared_parent (q c : Node) :
  fields_ok q = true ->
  In c (children q) ->
  (In (Some (interface_of q)) (parent_types (interface_of c)) <->
   ~ nested_operand c q).
Proof.
  intros Hf Hc. split.
  - intros Hin Hn. exact (nested_operand_undeclared _ _ Hn Hin).
  - intros Hn. destruct (slot_parent_declared q c Hf Hc); tauto.
Qed.

Lemma owner_is_declared_parent_nested :
  ~ In (Some IClassIntersection) (parent_types IUnicodeSetsCharacterClass).
Proof.
  intros Hin.
  apply (owner_is_declared_parent
           (ClassIntersection (mkBase 1 9 "[a]&&[b]")
              (CharacterClass (mkBase 1 4 "[a]") true false [chr 2 "a" 97])
              (CharacterClass (mkBase 6 9 "[b]") true false
                 [chr 7 "b" 98]))
           (CharacterClass (mkBase 1 4 "[a]") true false [chr 2 "a" 97]))
    in Hin.
  - apply Hin. split; simpl; auto.
  - reflexivity.
  - left. reflexivity.
Defined.

(** Declared parents that no node has.  The declared [parent] of an edge or
    word-boundary assertion lists [Quantifier], and that of an
    [ExpressionCharacterClass] or [UnicodeSetsCharacterClass] lists
    [ExpressionCharacterClass]; but no [Quantifier] and no
    [ExpressionCharacterClass] whose fields have the declared types owns such
    a node. *)
Theorem declared_parent_never_owner (q c : Node) :
  fields_ok q = true ->
  In c (children q) ->
  (In (interface_of c) BoundaryAssertion ->
   In (Some IQuantifier) (parent_types (interface_of c)) /\
   interface_of q <> IQuantifier) /\
  (In (interface_of c)
      [IExpressionCharacterClass; IUnicodeSetsCharacterClass] ->
   In (Some IExpressionCharacterClass) (parent_types (interface_of c)) /\
   interface_of q <> IExpressionCharacterClass).
Proof.
  intros Hf Hc.
  split; intros Hk; simpl in Hk.
  - split.
    + destruct Hk as [Hk|[Hk|[]]]; rewrite <- Hk; simpl; auto.
    + intros Hi.
      destruct q; try discriminate Hi;
        repeat match goal with
               | b : bool |- _ => destruct b
               | k : LookaroundKind |- _ => destruct k
               end; try discriminate Hi.
      all: cbn [fields_ok children] in Hf, Hc; slot_types;
        match goal with
        | H : In (interface_of _) _ |- _ =>
            each_interface H; rewrite <- H in Hk;
            repeat (destruct Hk as [Hk|Hk]); try discriminate; contradiction
        end.
  - split.
    + destruct Hk as [Hk|[Hk|[]]]; rewrite <- Hk; simpl; auto.
    + intros Hi.
      destruct q; try discriminate Hi;
        repeat match goal with
               | b : bool |- _ => destruct b
               | k : LookaroundKind |- _ => destruct k
               end; try discriminate Hi.
      all: cbn [fields_ok children] in Hf, Hc; slot_types;
        match goal with
        | H : In (interface_of _) _ |- _ =>
            each_interface H; rewrite <- H in Hk;
            repeat (destruct Hk as [Hk|Hk]); try discriminate; contradiction
        end.
Qed.

Lemma declared_parent_never_owner_nested :
  interface_of
    (ClassIntersection (mkBase 1 9 "[a]&&[b]")
       (CharacterClass (mkBase 1 4 "[a]") true false [chr 2 "a" 97])
       (CharacterClass (mkBase 6 9 "[b]") true false [chr 7 "b" 98]))
  <> IExpressionCharacterClass.
Proof.
  destruct (declared_parent_never_owner
              (ClassIntersection (mkBase 1 9 "[a]&&[b]")
                 (CharacterClass (mkBase 1 4 "[a]") true false
                    [chr 2 "a" 97])
                 (CharacterClass (mkBase 6 9 "[b]") true false
                    [chr 7 "b" 98]))
              (CharacterClass (mkBase 1 4 "[a]") true false [chr 2 "a" 97]))
    as [_ H].
  - reflexivity.
  - left. reflexivity.
  - apply H. simpl. auto.
Defined.

(** Branch and leaf nodes.  Every node is a [BranchNode] or a [LeafNode] and
    not both; a leaf owns no node; and every branch interface has nodes that
    own one. *)
Theorem branch_or_leaf (n : Node) :
  (In (interface_of n) BranchNode <-> ~ In (interface_of n) LeafNode) /\
  (In (interface_of n) LeafNode -> children n = []) /\
  (forall i, In i BranchNode ->
     interface_of (a_branch i) = i /\ children (a_branch i) <> []).
Proof.
  split; [|split].
  - rewrite <- !mem_In.
    destruct n; try (vm_compute; intuition congruence);
      repeat match goal with
             | b : bool |- _ => destruct b
             | k : LookaroundKind |- _ => destruct k
             end; vm_compute; intuition congruence.
  - rewrite <- mem_In.
    destruct n; try reflexivity;
      repeat match goal with
             | b : bool |- _ => destruct b
             | k : LookaroundKind |- _ => destruct k
             end; vm_compute; congruence.
  - intros i Hi. unfold BranchNode in Hi.
    each_interface Hi; rewrite <- Hi; split;
      (reflexivity || discriminate).
Qed.

Lemma classic_element_in_unicode_sets (n : Node) :
  is_a ClassRangesCharacterClassElement n = true ->
  is_a UnicodeSetsCharacterClassElement n = true.
Proof.
  unfold is_a. rewrite !mem_In. intros H.
  each_interface H; rewrite <- H; simpl; auto 20.
Qed.

(** The two class grammars.  The elements a classic class may hold are
    elements a Unicode-sets class may hold: a classic class whose fields have
    the declared types still has them with [unicodeSets] set.  The operands
    of a set operation are the elements of a Unicode-sets class except the
    [CharacterClassRange]. *)
Theorem classic_class_in_unicode_sets
        (b : NodeBase) (ng : bool) (els : list Node) :
  fields_ok (CharacterClass b false ng els) = true ->
  fields_ok (CharacterClass b true ng els) = true /\
  (forall n, In (interface_of n) ClassSetOperand <->
             In (interface_of n) UnicodeSetsCharacterClassElement /\
             interface_of n <> ICharacterClassRange).
Proof.
  intros H. split.
  - cbn [fields_ok] in H |- *. rewrite forallb_forall in H |- *.
    intros x Hx. apply classic_element_in_unicode_sets. exact (H x Hx).
  - intros n. split.
    + intros Hn. each_interface Hn; rewrite <- Hn; simpl;
        (split; [auto 20 | discriminate]).
    + intros [Hn Hne]. each_interface Hn; rewrite <- Hn in Hne |- *;
        simpl; auto 20; contradiction Hne; reflexivity.
Qed.

Lemma classic_class_in_unicode_sets_az :
  fields_ok
    (CharacterClass (mkBase 0 7 "[a-z\d]") true false
       [CharacterClassRange (mkBase 1 4 "a-z") (chr 1 "a" 97) (chr 3 "z" 122);
        EscapeCharacterSet (mkBase 4 6 "\d") digit false]) = true.
Proof.
  apply (classic_class_in_unicode_sets (mkBase 0 7 "[a-z\d]") false
           [CharacterClassRange (mkBase 1 4 "a-z")
              (chr 1 "a" 97) (chr 3 "z" 122);
            EscapeCharacterSet (mkBase 4 6 "\d") digit false]).
  reflexivity.
Defined.

(** The tree of [[[a]&&[b]]] has fields of the declared types and a nested
    class whose [parent] is not of the declared type. *)
Example pattern_nested_parent :
  well_typed pattern_nested = true /\ parents_typed pattern_nested = false.
Proof. split; reflexivity. Qed.

(** ** The own properties of an object *)

Lemma array_index_key (k : string) (n : N) :
  array_index k = Some n -> k = NilZero.string_of_uint (N.to_uint n).
Proof.
  unfold array_index.
  destruct (NilEmpty.uint_of_string k) as [u|]; [|discriminate].
  destruct (String.eqb _ k) eqn:E; simpl; [|discriminate].
  destruct (N.ltb _ _); [|discriminate].
  intros [= <-]. apply String.eqb_eq in E. symmetry. exact E.
Qed.

Lemma key_before_neq (a b : string) : key_before a b = true -> a <> b.
Proof.
  intros H ->. unfold key_before in H.
  destruct (array_index b).
  - rewrite N.ltb_irrefl in H. discriminate.
  - rewrite String.eqb_refl in H. discriminate.
Qed.

Lemma key_before_index_trans (a b c : string) (n : N) :
  array_index a = Some n ->
  key_before a b = true -> key_before b c = true -> key_before a c = true.
Proof.
  unfold key_before. intros ->.
  destruct (array_index b) as [m|], (array_index c) as [p|];
    try reflexivity; try discriminate.
  rewrite !N.ltb_lt. lia.
Qed.

Lemma ordered_app_single (ks : list string) (k : string) :
  ordered ks = true ->
  (forall a, In a ks -> key_before a k = true) ->
  ordered (ks ++ [k]) = true.
Proof.
  induction ks as [|a ks IH]; simpl; intros Ho Hk; [reflexivity|].
  apply andb_true_iff in Ho. destruct Ho as [Ha Ho].
  apply andb_true_iff. split.
  - rewrite forallb_app, Ha. simpl. rewrite Hk by auto. reflexivity.
  - apply IH; auto.
Qed.

Lemma ordered_app_before (xs ys : list string) (y : string) :
  ordered (xs ++ y :: ys) = true ->
  forall a, In a xs -> key_before a y = true.
Proof.
  induction xs as [|x xs IH]; simpl; intros Ho a Ha; [destruct Ha|].
  apply andb_true_iff in Ho. destruct Ho as [Hx Ho].
  destruct Ha as [<-|Ha]; [|exact (IH Ho a Ha)].
  rewrite forallb_forall in Hx. apply Hx.
  apply in_or_app. right. left. reflexivity.
Qed.

Section DefineFacts.
Context {V : Type}.

Lemma lookup_absent (k : string) (o : list (string * V)) :
  (forall a, In a (map fst o) -> a <> k) -> lookup k o = None.
Proof.
  induction o as [|[k' v'] o IH]; simpl; intros H; [reflexivity|].
  destruct (String.eqb k k') eqn:E.
  - apply String.eqb_eq in E. exfalso. apply (H k'); auto.
  - apply IH. intros a Ha. apply H. auto.
Qed.

Lemma lookup_none_keys (k : string) (o : list (string * V)) :
  lookup k o = None -> ~ In k (map fst o).
Proof.
  induction o as [|[k' v'] o IH]; simpl; intros H; [tauto|].
  destruct (String.eqb k k') eqn:E; [discriminate|].
  apply String.eqb_neq in E. intros [Hk|Hk]; [congruence | exact (IH H Hk)].
Qed.

Lemma set_value_keys (k : string) (v : V) (o : list (string * V)) :
  map fst (set_value k v o) = map fst o.
Proof.
  induction o as [|[k' v'] o IH]; simpl; [reflexivity|].
  destruct (String.eqb k k') eqn:E; simpl.
  - apply String.eqb_eq in E. subst k'. reflexivity.
  - rewrite IH. reflexivity.
Qed.

Lemma set_value_in (k : string) (v : V) (o : list (string * V))
      (x : string * V) :
  In x (set_value k v o) -> x = (k, v) \/ In x o.
Proof.
  induction o as [|[k' v'] o IH]; simpl; [tauto|].
  destruct (String.eqb k k'); simpl; intros [H|H]; auto.
  destruct (IH H); auto.
Qed.

Lemma insert_index_in (n : N) (k : string) (v : V) (o : list (string * V))
      (x : string * V) :
  In x (insert_index n k v o) -> x = (k, v) \/ In x o.
Proof.
  induction o as [|[k' v'] o IH]; simpl.
  - intros [H|[]]. auto.
  - destruct (array_index k') as [n'|].
    + destruct (N.ltb n n'); simpl; intros [H|H]; auto.
      destruct (IH H); auto.
    + simpl. intros [H|H]; auto.
Qed.

Lemma define_in (k : string) (v : V) (o : list (string * V))
      (x : string * V) :
  In x (define k v o) -> x = (k, v) \/ In x o.
Proof.
  unfold define. destruct (lookup k o).
  - apply set_value_in.
  - destruct (array_index k).
    + apply insert_index_in.
    + intros H. apply in_app_or in H. destruct H as [H|[H|[]]]; auto.
Qed.

Lemma insert_index_ordered (n : N) (k : string) (v : V)
      (o : list (string * V)) :
  array_index k = Some n ->
  ~ In k (map fst o) ->
  ordered (map fst o) = true ->
  ordered (map fst (insert_index n k v o)) = true.
Proof.
  intros Hk. induction o as [|[k' v'] o IH]; simpl; intros Hfresh Ho;
    [reflexivity|].
  apply andb_true_iff in Ho. destruct Ho as [Hk' Ho].
  assert (Hfirst : key_before k k' = true ->
                   ordered (k :: k' :: map fst o) = true).
  { intros Hb. simpl. rewrite Hb, Hk', Ho. simpl.
    rewrite andb_true_r. apply forallb_forall. intros x Hx.
    rewrite forallb_forall in Hk'.
    exact (key_before_index_trans k k' x n Hk Hb (Hk' x Hx)). }
  destruct (array_index k') as [n'|] eqn:En'.
  - destruct (N.ltb n n') eqn:El.
    + apply Hfirst. unfold key_before. rewrite Hk, En'. exact El.
    + simpl. apply andb_true_iff. split.
      * apply forallb_forall. intros x Hx.
        apply in_map_iff in Hx. destruct Hx as (y & <- & Hy).
        apply insert_index_in in Hy. destruct Hy as [->|Hy].
        -- simpl. unfold key_before. rewrite En', Hk.
           apply N.ltb_lt. apply N.ltb_ge in El.
           assert (n <> n').
           { intros ->. apply Hfresh. left.
             rewrite (array_index_key _ _ Hk), (array_index_key _ _ En').
             reflexivity. }
           lia.
        -- rewrite forallb_forall in Hk'. apply Hk'.
           apply in_map. exact Hy.
      * apply IH; [tauto | exact Ho].
  - apply Hfirst. unfold key_before. rewrite Hk, En'. reflexivity.
Qed.

Lemma define_ordered (k : string) (v : V) (o : list (string * V)) :
  ordered (map fst o) = true -> ordered (map fst (define k v o)) = true.
Proof.
  intros Ho. unfold define. destruct (lookup k o) eqn:El.
  - rewrite set_value_keys. exact Ho.
  - apply lookup_none_keys in El.
    destruct (array_index k) as [n|] eqn:Ek.
    + apply insert_index_ordered; assumption.
    + rewrite map_app. simpl. apply ordered_app_single; [exact Ho|].
      intros a Ha. unfold key_before. rewrite Ek.
      destruct (array_index a); [reflexivity|].
      apply negb_true_iff. apply String.eqb_neq. congruence.
Qed.

Lemma insert_index_last (n : N) (k : string) (v : V)
      (o : list (string * V)) :
  array_index k = Some n ->
  (forall a, In a (map fst o) -> key_before a k = true) ->
  insert_index n k v o = o ++ [(k, v)].
Proof.
  intros Hk. induction o as [|[k' v'] o IH]; simpl; intros H; [reflexivity|].
  pose proof (H k' (or_introl eq_refl)) as Hb.
  unfold key_before in Hb. rewrite Hk in Hb.
  destruct (array_index k') as [n'|]; [|discriminate].
  apply N.ltb_lt in Hb.
  destruct (N.ltb n n') eqn:El; [apply N.ltb_lt in El; lia|].
  rewrite IH; [reflexivity|]. intros a Ha. apply H. auto.
Qed.

Lemma define_last (k : string) (v : V) (o : list (string * V)) :
  (forall a, In a (map fst o) -> key_before a k = true) ->
  define k v o = o ++ [(k, v)].
Proof.
  intros H. unfold define.
  rewrite lookup_absent
    by (intros a Ha; apply key_before_neq; apply H; exact Ha).
  destruct (array_index k) as [n|] eqn:Ek; [|reflexivity].
  apply insert_index_last; assumption.
Qed.

Lemma create_from_ordered (l acc : list (string * V)) :
  ordered (map fst (acc ++ l)) = true ->
  fold_left (fun o kv => define (fst kv) (snd kv) o) l acc = acc ++ l.
Proof.
  revert acc. induction l as [|[k v] l IH]; intros acc Ho; simpl.
  - rewrite app_nil_r. reflexivity.
  - rewrite define_last.
    + rewrite IH; rewrite <- app_assoc; [reflexivity | exact Ho].
    + rewrite map_app in Ho. simpl in Ho.
      exact (ordered_app_before _ _ _ Ho).
Qed.

(** An object that is created from its own properties is the object. *)
Lemma create_ordered (l : list (string * V)) :
  ordered (map fst l) = true -> create l = l.
Proof. intros H. unfold create. apply (create_from_ordered l []). exact H. Qed.

Lemma create_from_facts (P : V -> Prop) (l acc : list (string * V)) :
  ordered (map fst acc) = true ->
  (forall kv, In kv acc -> P (snd kv)) ->
  (forall kv, In kv l -> P (snd kv)) ->
  let o := fold_left (fun o kv => define (fst kv) (snd kv) o) l acc in
  ordered (map fst o) = true /\ forall kv, In kv o -> P (snd kv).
Proof.
  revert acc. induction l as [|[k v] l IH]; intros acc Ho Hacc Hl; simpl.
  - auto.
  - apply IH.
    + apply define_ordered. exact Ho.
    + intros kv Hkv. apply define_in in Hkv. destruct Hkv as [->|Hkv].
      * exact (Hl (k, v) (or_introl eq_refl)).
      * exact (Hacc kv Hkv).
    + intros kv Hkv. apply Hl. right. exact Hkv.
Qed.

(** What the members of an object literal create has its keys in order, and
    every value of it is the value of a member. *)
Lemma create_facts (P : V -> Prop) (l : list (string * V)) :
  (forall kv, In kv l -> P (snd kv)) ->
  ordered (map fst (create l)) = true /\
  forall kv, In kv (create l) -> P (snd kv).
Proof.
  intros H. apply (create_from_facts P l []); [reflexivity | | exact H].
  intros kv [].
Qed.
End DefineFacts.

(** ** The fixture store: writing and loading *)

Lemma measure_ind {A : Type} (f : A -> nat) (P : A -> Prop) :
  (forall x, (forall y, (f y < f x)%nat -> P y) -> P x) -> forall x, P x.
Proof.
  intros step x. remember (f x) as k eqn:Hk. revert x Hk.
  induction k as [k IH] using lt_wf_ind.
  intros x ->. apply step. intros y Hy. exact (IH (f y) Hy y eq_refl).
Qed.

Lemma le_list_max {A : Type} (f : A -> nat) (l : list A) (x : A) :
  In x l -> (f x <= list_max (map f l))%nat.
Proof.
  induction l as [|a l IH]; simpl; [tauto|].
  intros [->|H]; [lia|]. specialize (IH H). lia.
Qed.

Lemma depth_element (l : list jsval) (x : jsval) :
  In x l -> (depth x < depth (VArray l))%nat.
Proof. intros H. pose proof (le_list_max depth l x H). simpl. lia. Qed.

Lemma depth_member (ps : list (string * jsval)) (kv : string * jsval) :
  In kv ps -> (depth (snd kv) < depth (VObject ps))%nat.
Proof.
  intros H. pose proof (le_list_max (fun kv => depth (snd kv)) ps kv H) as Hle.
  simpl in Hle |- *. lia.
Qed.

Section Pointwise.
Context {A B : Type}.

Lemma try_elements_total (f : string -> A -> option B) (g : A -> B)
      (l : list A) :
  (forall x k, In x l -> f k x = Some (g x)) ->
  forall i, try_elements f i l = Some (map g l).
Proof.
  induction l as [|a l IH]; intros H i; simpl; [reflexivity|].
  rewrite (H a _ (or_introl eq_refl)).
  rewrite IH; [reflexivity|]. intros x k Hx. apply H. right. exact Hx.
Qed.

Lemma try_members_total (f : string -> A -> option B) (g : A -> B)
      (ps : list (string * A)) :
  (forall kv k, In kv ps -> f k (snd kv) = Some (g (snd kv))) ->
  try_members f ps = Some (map (fun kv => (fst kv, g (snd kv))) ps).
Proof.
  induction ps as [|[k x] ps IH]; intros H; simpl; [reflexivity|].
  pose proof (H (k, x) k (or_introl eq_refl)) as E. simpl in E. rewrite E.
  rewrite IH; [reflexivity|]. intros kv k' Hkv. apply H. right. exact Hkv.
Qed.

Lemma map_elements_each (f : string -> A -> B) (g : A -> B) (l : list A) :
  (forall x k, In x l -> f k x = g x) ->
  forall i, map_elements f i l = map g l.
Proof.
  induction l as [|a l IH]; intros H i; simpl; [reflexivity|].
  rewrite (H a _ (or_introl eq_refl)).
  rewrite IH; [reflexivity|]. intros x k Hx. apply H. right. exact Hx.
Qed.

Lemma map_members_each (f : string -> A -> B) (g : A -> B)
      (ps : list (string * A)) :
  (forall kv k, In kv ps -> f k (snd kv) = g (snd kv)) ->
  map_members f ps = map (fun kv => (fst kv, g (snd kv))) ps.
Proof.
  induction ps as [|[k x] ps IH]; intros H; simpl; [reflexivity|].
  pose proof (H (k, x) k (or_introl eq_refl)) as E. simpl in E. rewrite E.
  rewrite IH; [reflexivity|]. intros kv k' Hkv. apply H. right. exact Hkv.
Qed.
End Pointwise.

Lemma map_fixed {A : Type} (f : A -> A) (l : list A) :
  map f l = l <-> forall x, In x l -> f x = x.
Proof.
  induction l as [|a l IH]; simpl.
  - split; [intros _ x [] | reflexivity].
  - split.
    + intros [= Ha Hl] x [<-|Hx]; [exact Ha | apply IH; assumption].
    + intros H. f_equal; [apply H; auto | apply IH; auto].
Qed.

Lemma map_members_fixed (f : jsval -> jsval) (ps : list (string * jsval)) :
  map (fun kv => (fst kv, f (snd kv))) ps = ps <->
  forall kv, In kv ps -> f (snd kv) = snd kv.
Proof.
  rewrite map_fixed. split; intros H [k x] Hkv; specialize (H (k, x) Hkv);
    simpl in *; congruence.
Qed.

(** With fuel beyond the depth of the value, [JSON.stringify] with the
    replacer of [save] returns, and writes every [Infinity] as the
    sentinel. *)
Lemma stringify_save_replacer (v : jsval) :
  forall fuel key,
    (depth v < fuel)%nat ->
    SerializeJSONProperty save_replacer fuel key v = Some (sentinel_text v).
Proof.
  induction v as [v IH] using (measure_ind depth).
  intros [|fuel] key Hfuel; [lia|].
  destruct v as [| b | [z| | | | |m e] | s | l | ps]; simpl; try reflexivity.
  - rewrite (try_elements_total _ sentinel_text); [reflexivity|].
    intros x k Hx. pose proof (depth_element l x Hx).
    apply IH; [assumption | lia].
  - rewrite (try_members_total _ sentinel_text); [reflexivity|].
    intros kv k Hkv. pose proof (depth_member ps kv Hkv).
    apply IH; [assumption | lia].
Qed.

Lemma save_text (v : jsval) : save v = Some (sentinel_text v).
Proof.
  unfold save, JSON_stringify. apply stringify_save_replacer. lia.
Qed.

(** The walk of the reviver of the loader turns the sentinel strings of a
    value into [Infinity], and without a reviver the walk changes nothing. *)
Lemma internalize_load_reviver (v : jsval) :
  forall key, InternalizeJSONProperty load_reviver key v = revived v.
Proof.
  induction v as [v IH] using (measure_ind depth).
  intros key.
  destruct v as [| b | n | s | l | ps]; simpl; try reflexivity.
  - f_equal. apply map_elements_each.
    intros x k Hx. apply IH. exact (depth_element l x Hx).
  - f_equal. apply map_members_each.
    intros kv k Hkv. apply IH. exact (depth_member ps kv Hkv).
Qed.

Lemma internalize_no_reviver (v : jsval) :
  forall key, InternalizeJSONProperty (fun _ x => x) key v = v.
Proof.
  induction v as [v IH] using (measure_ind depth).
  intros key.
  destruct v as [| b | n | s | l | ps]; simpl; try reflexivity.
  - f_equal. rewrite (map_elements_each _ (fun x => x)).
    + apply map_id.
    + intros x k Hx. apply IH. exact (depth_element l x Hx).
  - f_equal. rewrite (map_members_each _ (fun x => x)).
    + apply map_fixed. intros [k x] _. reflexivity.
    + intros kv k Hkv. apply IH. exact (depth_member ps kv Hkv).
Qed.

Lemma plain_parse_value (text : json) : plain_parse text = parse_value text.
Proof. apply internalize_no_reviver. Qed.

Lemma load_revives (text : json) : load text = revived (plain_parse text).
Proof.
  rewrite plain_parse_value. unfold load, JSON_parse.
  apply internalize_load_reviver.
Qed.

(** What a save followed by a load returns. *)
Lemma save_then_load_value (v : jsval) :
  save_then_load v = Some (revived (parse_value (sentinel_text v))).
Proof.
  unfold save_then_load. rewrite save_text. simpl.
  rewrite load_revives, plain_parse_value. reflexivity.
Qed.

Lemma map_members_keys {A B : Type} (f : A -> B) (ps : list (string * A)) :
  map fst (map (fun kv => (fst kv, f (snd kv))) ps) = map fst ps.
Proof. rewrite map_map. apply map_ext. reflexivity. Qed.

Lemma parse_value_well_formed (text : json) :
  well_formed (parse_value text) = true.
Proof.
  induction text as [j IH] using (measure_ind json_depth).
  destruct j as [| b | n | s | l | ps]; simpl; try reflexivity.
  - apply forallb_forall. intros x Hx.
    apply in_map_iff in Hx. destruct Hx as (y & <- & Hy).
    apply IH. pose proof (le_list_max json_depth l y Hy). simpl. lia.
  - destruct (create_facts (fun v => well_formed v = true)
                (map_members (fun _ => parse_value) ps)) as [Ho Hv].
    + rewrite (map_members_each _ parse_value) by reflexivity.
      intros kv Hkv. apply in_map_iff in Hkv.
      destruct Hkv as (y & <- & Hy). simpl. apply IH.
      pose proof (le_list_max (fun kv => json_depth (snd kv)) ps y Hy) as Hle.
      simpl in Hle |- *. lia.
    + rewrite Ho. simpl. apply forallb_forall. exact Hv.
Qed.

Lemma revived_well_formed (v : jsval) :
  well_formed v = true -> well_formed (revived v) = true.
Proof.
  induction v as [v IH] using (measure_ind depth).
  destruct v as [| b | n | s | l | ps]; simpl; try reflexivity.
  - intros _. destruct (String.eqb s sentinel); reflexivity.
  - rewrite !forallb_forall. intros H x Hx.
    apply in_map_iff in Hx. destruct Hx as (y & <- & Hy).
    apply IH; [exact (depth_element l y Hy) | exact (H y Hy)].
  - intros H. apply andb_true_iff in H. destruct H as [Ho Hv].
    rewrite map_members_keys, Ho. simpl.
    rewrite forallb_forall in Hv. apply forallb_forall. intros kv Hkv.
    apply in_map_iff in Hkv. destruct Hkv as (y & <- & Hy). simpl.
    apply IH; [exact (depth_member ps y Hy) | exact (Hv y Hy)].
Qed.

Lemma revived_sentinel_free (v : jsval) : sentinel_free (revived v) = true.
Proof.
  induction v as [v IH] using (measure_ind depth).
  destruct v as [| b | n | s | l | ps]; simpl; try reflexivity.
  - destruct (String.eqb s sentinel) eqn:E; simpl; [reflexivity|].
    rewrite E. reflexivity.
  - apply forallb_forall. intros x Hx.
    apply in_map_iff in Hx. destruct Hx as (y & <- & Hy).
    apply IH. exact (depth_element l y Hy).
  - apply forallb_forall. intros kv Hkv.
    apply in_map_iff in Hkv. destruct Hkv as (y & <- & Hy). simpl.
    apply IH. exact (depth_member ps y Hy).
Qed.

Lemma revived_restorable (v : jsval) :
  restorable_numbers v = true -> restorable_numbers (revived v) = true.
Proof.
  induction v as [v IH] using (measure_ind depth).
  destruct v as [| b | n | s | l | ps]; simpl; try tauto.
  - intros _. destruct (String.eqb s sentinel); reflexivity.
  - rewrite !forallb_forall. intros H x Hx.
    apply in_map_iff in Hx. destruct Hx as (y & <- & Hy).
    apply IH; [exact (depth_element l y Hy) | exact (H y Hy)].
  - rewrite !forallb_forall. intros H kv Hkv.
    apply in_map_iff in Hkv. destruct Hkv as (y & <- & Hy). simpl.
    apply IH; [exact (depth_member ps y Hy) | exact (H y Hy)].
Qed.

(** The numbers of a text that [save] wrote are finite and none is [-0]. *)
Lemma saved_text_restorable (v : jsval) :
  restorable_numbers (parse_value (sentinel_text v)) = true.
Proof.
  induction v as [v IH] using (measure_ind depth).
  destruct v as [| b | [z| | | | |m e] | s | l | ps]; simpl; try reflexivity.
  - apply forallb_forall. intros x Hx.
    rewrite map_map in Hx. apply in_map_iff in Hx.
    destruct Hx as (y & <- & Hy). apply IH. exact (depth_element l y Hy).
  - apply forallb_forall.
    apply (create_facts (fun v => restorable_numbers v = true)).
    rewrite (map_members_each _ parse_value) by reflexivity.
    rewrite map_map. intros kv Hkv. apply in_map_iff in Hkv.
    destruct Hkv as (y & <- & Hy). simpl.
    apply IH. exact (depth_member ps y Hy).
Qed.

(** A value with its keys in order, without a sentinel string and with
    restorable numbers only is what a save followed by a load returns for
    it. *)
Lemma restored (v : jsval) :
  well_formed v = true -> sentinel_free v = true ->
  restorable_numbers v = true ->
  revived (parse_value (sentinel_text v)) = v.
Proof.
  induction v as [v IH] using (measure_ind depth).
  destruct v as [| b | [z| | | | |m e] | s | l | ps]; simpl;
    try reflexivity; try discriminate.
  - intros _ Hs _. apply negb_true_iff in Hs. rewrite Hs. reflexivity.
  - rewrite !forallb_forall. intros Hw Hs Hr. f_equal.
    rewrite !map_map. apply map_fixed. intros x Hx.
    apply IH; [exact (depth_element l x Hx) | auto | auto | auto].
  - rewrite !forallb_forall. intros Hw Hs Hr.
    apply andb_true_iff in Hw. destruct Hw as [Ho Hw].
    rewrite forallb_forall in Hw. f_equal.
    rewrite (map_members_each _ parse_value) by reflexivity.
    rewrite create_ordered by (rewrite !map_members_keys; exact Ho).
    rewrite !map_map. simpl.
    apply (map_members_fixed
             (fun x => revived (parse_value (sentinel_text x)))). intros kv Hkv.
    apply IH; [exact (depth_member ps kv Hkv) | auto | auto | auto].
Qed.

(** What a save followed by a load returns has its keys in order, no
    sentinel string and restorable numbers only. *)
Lemma save_then_load_shape (v w : jsval) :
  save_then_load v = Some w ->
  well_formed w = true /\ sentinel_free w = true /\
  restorable_numbers w = true.
Proof.
  rewrite save_then_load_value. intros [= <-]. repeat split.
  - apply revived_well_formed. apply parse_value_well_formed.
  - apply revived_sentinel_free.
  - apply revived_restorable. apply saved_text_restorable.
Qed.

Lemma save_then_load_fixed (v : jsval) :
  save_then_load v = Some v <->
  well_formed v = true /\ sentinel_free v = true /\
  restorable_numbers v = true.
Proof.
  split.
  - apply save_then_load_shape.
  - intros (Hw & Hs & Hr). rewrite save_then_load_value.
    f_equal. apply restored; assumption.
Qed.

Lemma sentinel_text_revived (v : jsval) :
  sentinel_text (revived v) = sentinel_text v.
Proof.
  induction v as [v IH] using (measure_ind depth).
  destruct v as [| b | n | s | l | ps]; simpl; try reflexivity.
  - destruct (String.eqb s sentinel) eqn:E; simpl; [|reflexivity].
    apply String.eqb_eq in E. congruence.
  - f_equal. rewrite map_map. apply map_ext_in. intros x Hx.
    apply IH. exact (depth_element l x Hx).
  - f_equal. rewrite map_map. apply map_ext_in. intros kv Hkv. simpl.
    f_equal. apply IH. exact (depth_member ps kv Hkv).
Qed.

(** The text [save] writes for a value is also the text it writes for the
    value of that text. *)
Lemma sentinel_text_parsed (v : jsval) :
  well_formed v = true ->
  sentinel_text (parse_value (sentinel_text v)) = sentinel_text v.
Proof.
  induction v as [v IH] using (measure_ind depth).
  destruct v as [| b | [z| | | | |m e] | s | l | ps]; simpl;
    try reflexivity.
  - rewrite forallb_forall. intros Hw. f_equal.
    rewrite !map_map. apply map_ext_in. intros x Hx.
    apply IH; [exact (depth_element l x Hx) | auto].
  - intros Hw. apply andb_true_iff in Hw. destruct Hw as [Ho Hw].
    rewrite forallb_forall in Hw. f_equal.
    rewrite (map_members_each _ parse_value) by reflexivity.
    rewrite create_ordered by (rewrite !map_members_keys; exact Ho).
    rewrite !map_map. simpl. apply map_ext_in. intros kv Hkv.
    f_equal. apply IH; [exact (depth_member ps kv Hkv) | auto].
Qed.

Lemma dollar_record_not_restored :
  ~ (forall v, save_then_load v = Some v).
Proof.
  intros H. specialize (H dollar_record).
  rewrite save_then_load_value in H. vm_compute in H. discriminate H.
Qed.

(** C2, amended -- Fixture sentinel round trip.  For every fixture value that
    holds no string value equal to the sentinel and no number that is [NaN],
    [-Infinity] or [-0], writing the value and loading it again returns the
    value; in particular [Infinity] comes back as [Infinity] and every finite
    number other than [-0] as the same number.  [NaN] and [-Infinity] come
    back as [null] and [-0] as [0].  (The keys of the objects of the value
    stand in the order of the own properties, as those of every JavaScript
    object do.) *)
Theorem sentinel_round_trip (v : jsval) :
  well_formed v = true ->
  sentinel_free v = true ->
  restorable_numbers v = true ->
  save_then_load v = Some v /\
  save_then_load (VNumber Infinity) = Some (VNumber Infinity) /\
  (forall z, save_then_load (VNumber (Num z)) = Some (VNumber (Num z))) /\
  (forall m e,
     save_then_load (VNumber (Dyadic m e)) = Some (VNumber (Dyadic m e))) /\
  save_then_load (VNumber NaN) = Some VNull /\
  save_then_load (VNumber NegInfinity) = Some VNull /\
  save_then_load (VNumber NegZero) = Some (VNumber (Num 0)).
Proof.
  intros Hw Hs Hr. split; [|repeat split].
  apply save_then_load_fixed. auto.
Qed.

Lemma sentinel_round_trip_quantifier :
  save_then_load quantifier_record = Some quantifier_record.
Proof.
  apply (sentinel_round_trip quantifier_record); reflexivity.
Defined.



(** ** Loading first *)

(** A loaded record holds no sentinel string and its objects have their keys
    in the order of the own properties; writing it and loading it again
    returns it exactly when the text holds no numeral that reads as
    [-Infinity] or as [-0]. *)
Theorem loaded_record_restored (text : json) :
  sentinel_free (load text) = true /\
  well_formed (load text) = true /\
  (save_then_load (load text) = Some (load text) <->
   restorable_numbers (load text) = true).
Proof.
  rewrite load_revives, plain_parse_value.
  assert (Hs := revived_sentinel_free (parse_value text)).
  assert (Hw := revived_well_formed _ (parse_value_well_formed text)).
  split; [exact Hs|]. split; [exact Hw|].
  rewrite save_then_load_fixed. tauto.
Qed.

(** The text [-1e309] reads as [-Infinity], which [save] writes as [null]. *)
Example negative_overflow_not_restored :
  load (JNumber NegInfinity) = VNumber NegInfinity /\
  save_then_load (load (JNumber NegInfinity)) = Some VNull.
Proof. split; reflexivity. Qed.

(** Loading a text that [save] wrote and saving again writes the same
    text. *)
Theorem load_then_save_text (v : jsval) (text : json) :
  well_formed v = true ->
  save v = Some text ->
  save (load text) = Some text.
Proof.
  intros Hw Hsave. rewrite save_text in Hsave. injection Hsave as <-.
  rewrite load_revives, plain_parse_value, save_text.
  rewrite sentinel_text_revived, sentinel_text_parsed by exact Hw.
  reflexivity.
Qed.

Lemma load_then_save_text_dollar :
  save (load (sentinel_text dollar_record)) =
  Some (sentinel_text dollar_record).
Proof.
  apply (load_then_save_text dollar_record); reflexivity.
Defined.

(** A text that [save] did not write may come back as another text: a
    repeated name is written once. *)
Example repeated_name_text :
  save (load (JObject [("a", JNumber (Num 1)); ("a", JNumber (Num 2))])) =
  Some (JObject [("a", JNumber (Num 2))]).
Proof. reflexivity. Qed.

(** What a save followed by a load returns is returned again by the next
    save followed by a load. *)
Theorem save_then_load_stable (v w : jsval) :
  save_then_load v = Some w -> save_then_load w = Some w.
Proof.
  intros H. apply save_then_load_fixed.
  exact (save_then_load_shape v w H).
Qed.

Lemma save_then_load_stable_dollar :
  save_then_load (revived dollar_record) = Some (revived dollar_record).
Proof.
  apply (save_then_load_stable dollar_record). reflexivity.
Defined.

(** ** The declared type of a loaded record *)

Lemma lookup_revived (k : string) (ps : list (string * jsval)) :
  lookup k (map (fun kv => (fst kv, revived (snd kv))) ps) =
  option_map revived (lookup k ps).
Proof.
  induction ps as [|[k' v] ps IH]; simpl; [reflexivity|].
  destruct (String.eqb k k'); [reflexivity | exact IH].
Qed.

Lemma property_revived (k : string) (v : jsval) :
  is_object v = true ->
  property k (revived v) = option_map revived (property k v).
Proof.
  destruct v; try discriminate; intros _; simpl.
  - reflexivity.
  - apply lookup_revived.
Qed.

Lemma property_is_object (k : string) (v x : jsval) :
  property k v = Some x -> is_object v = true.
Proof. destruct v; simpl; (discriminate || reflexivity). Qed.

Lemma is_object_revived (v : jsval) : is_object (revived v) = is_object v.
Proof.
  destruct v; simpl; try reflexivity.
  destruct (String.eqb s sentinel); reflexivity.
Qed.

Lemma has_ast_revived (v : jsval) : has_ast (revived v) = has_ast v.
Proof.
  unfold has_ast. destruct (property "ast" v) as [a|] eqn:E.
  - rewrite (property_revived _ _ (property_is_object _ _ _ E)), E. simpl.
    apply is_object_revived.
  - destruct v; simpl in *; try reflexivity.
    + destruct (String.eqb s sentinel); reflexivity.
    + rewrite lookup_revived, E. reflexivity.
Qed.

Lemma has_error_revived (v : jsval) :
  has_error v = true ->
  has_error (revived v) = negb (sentinel_message v).
Proof.
  unfold has_error, sentinel_message.
  destruct (property "error" v) as [e|] eqn:E; [|discriminate].
  rewrite (property_revived _ _ (property_is_object _ _ _ E)), E. simpl.
  unfold is_error.
  destruct (property "message" e) as [[| | | s | |]|] eqn:Em; try discriminate.
  destruct (property "index" e) as [[| | n | | |]|] eqn:Ei; try discriminate.
  intros _.
  rewrite !(property_revived _ _ (property_is_object _ _ _ Em)), Em, Ei.
  simpl. destruct (String.eqb s sentinel); reflexivity.
Qed.

Lemma is_options_revived (is_version : Z -> bool) (v : jsval) :
  is_options is_version v = true ->
  is_options is_version (revived v) = true.
Proof.
  unfold is_options.
  destruct (property "strict" v) as [[| b | | | |]|] eqn:Es; try discriminate.
  destruct (property "ecmaVersion" v) as [[| | [z| | | | |m e] | | |]|] eqn:Ev;
    try discriminate.
  rewrite !(property_revived _ _ (property_is_object _ _ _ Es)), Es, Ev.
  simpl. tauto.
Qed.

(** The cast of the loader.  When the text, parsed as it stands, has the
    declared type of a fixture record, the loaded record has that type if and
    only if no result without an [ast] has the sentinel string as its
    [error.message]: such a message is loaded as the number [Infinity]. *)
Theorem loaded_record_type (is_version : Z -> bool) (text : json) :
  is_fixture is_version (plain_parse text) = true ->
  (is_fixture is_version (load text) = true <->
   forall k r, In (k, r) (patterns_of (plain_parse text)) ->
               has_ast r = true \/ sentinel_message r = false).
Proof.
  rewrite load_revives. generalize (plain_parse text). intros v.
  unfold is_fixture, patterns_of.
  destruct (property "options" v) as [o|] eqn:Eo; [|discriminate].
  destruct (property "patterns" v) as [[| | | | |ps]|] eqn:Ep;
    try discriminate.
  rewrite !(property_revived _ _ (property_is_object _ _ _ Eo)), Eo, Ep.
  simpl. intros H. apply andb_true_iff in H. destruct H as [Ho Hps].
  rewrite (is_options_revived _ _ Ho). simpl.
  rewrite forallb_forall in Hps. rewrite forallb_forall. split.
  - intros H k r Hin.
    specialize (H (k, revived r)).
    assert (Hin' : In (k, revived r)
                      (map (fun kv => (fst kv, revived (snd kv))) ps))
      by (apply in_map_iff; exists (k, r); auto).
    specialize (H Hin'). simpl in H.
    specialize (Hps (k, r) Hin). simpl in Hps.
    unfold is_pattern_result in H, Hps. rewrite has_ast_revived in H.
    destruct (has_ast r); [left; reflexivity|]. simpl in H, Hps. right.
    rewrite (has_error_revived _ Hps) in H.
    destruct (sentinel_message r); [discriminate | reflexivity].
  - intros H kv Hin. apply in_map_iff in Hin.
    destruct Hin as ([k r] & <- & Hin). simpl.
    specialize (Hps (k, r) Hin). simpl in Hps.
    unfold is_pattern_result in Hps |- *. rewrite has_ast_revived.
    destruct (has_ast r) eqn:Ea; [reflexivity|]. simpl in Hps |- *.
    rewrite (has_error_revived _ Hps).
    destruct (H k r Hin) as [Hc|Hc]; [congruence|]. rewrite Hc. reflexivity.
Qed.

Lemma loaded_record_type_basic :
  is_fixture es5_to_es2025 (load basic_text) = true.
Proof.
  apply (loaded_record_type es5_to_es2025 basic_text).
  - reflexivity.
  - intros k r Hin. vm_compute in Hin.
    destruct Hin as [[= <- <-]|[[= <- <-]|[]]];
      [left | right]; reflexivity.
Defined.

Example message_text_mistyped :
  is_fixture es5_to_es2025 (plain_parse message_text) = true /\
  is_fixture es5_to_es2025 (load message_text) = false.
Proof. split; reflexivity. Qed.

